(** * Interview session: transcript consolidation, evaluation document,
      session events and presence monitor

    Shallow embedding of the [Interview] component of
    [frontend/src/components/Validate.jsx]:
    - [formatVapiTranscript] (lines 477-531), the fold that merges the raw
      transcript fragments into speaker turns;
    - [formatTranscriptForLLM] (lines 535-548), the rendering of the
      evaluation document;
    - the Vapi event listeners and [endCall] (lines 550-630);
    - the [detectFaces] interval (lines 446-470);

    and of the components around it:
    - [Validate] of the same file: [sendPhotoToServer] (lines 164-235);
    - [Form] of [frontend/src/main.jsx]: [validateForm], [handleFileChange]
      and [handleSubmit] (lines 50-219), with the two patterns of the
      validation;
    - [App] of [frontend/src/App.jsx]: [getAssistantId], [handleFormSubmit]
      and [handleValidationSuccess].

    JavaScript strings are modelled as [string]: every [ascii] stands for one
    UTF-16 code unit below 256, so [String.length] is [.length].  A transcript
    entry is an object [{role, text}] whose two properties are strings; the
    empty string is the falsy string.  Requests to the network are not run:
    a handler takes what the network answers as an argument and returns what
    it has done. *)

From Stdlib Require Import String Ascii List Bool Arith NArith Lia.
Import ListNotations.
Open Scope string_scope.

(** ** JavaScript string primitives used by the component *)

(** [WhiteSpace] and [LineTerminator] code units of ECMAScript below 256:
    TAB, LF, VT, FF, CR, SPACE and NBSP. *)
Definition isWhiteSpace (c : ascii) : bool :=
  match N_of_ascii c with
  | 9%N | 10%N | 11%N | 12%N | 13%N | 32%N | 160%N => true
  | _ => false
  end.

(** [s.trimStart()] *)
Fixpoint trimStart (s : string) : string :=
  match s with
  | EmptyString => EmptyString
  | String c s' => if isWhiteSpace c then trimStart s' else s
  end.

(** [s.trimEnd()] *)
Fixpoint trimEnd (s : string) : string :=
  match s with
  | EmptyString => EmptyString
  | String c s' =>
      match trimEnd s' with
      | EmptyString => if isWhiteSpace c then EmptyString else String c EmptyString
      | t => String c t
      end
  end.

(** [s.trim()] *)
Definition trim (s : string) : string := trimEnd (trimStart s).

(** [s.startsWith(p)] *)
Definition startsWith (s p : string) : bool := String.prefix p s.

(** [s.includes(t)]: [t] occurs in [s] at some position. *)
Fixpoint includes (s t : string) : bool :=
  String.prefix t s ||
  match s with
  | EmptyString => false
  | String _ s' => includes s' t
  end.

(** Truthiness of a string: only the empty string is falsy. *)
Definition truthy (s : string) : bool :=
  match s with
  | EmptyString => false
  | String _ _ => true
  end.

(** Every code unit of [s] is white space (so [s.trim()] is empty). *)
Fixpoint blank (s : string) : bool :=
  match s with
  | EmptyString => true
  | String c s' => isWhiteSpace c && blank s'
  end.

(** ** Transcript entries *)

(** The objects [{role, text}] built by the ["message"] listener and by
    [formatVapiTranscript]; raw fragments and finalized utterances have the
    same shape, and [endCall] feeds the latter back as the former. *)
Record Item : Type := mkItem { role : string; text : string }.

Definition Fragment := Item.
Definition Utterance := Item.

(** Role strings sent by the voice transport. *)
Definition Interviewer : string := "assistant".
Definition Candidate : string := "user".

(** ** formatVapiTranscript *)

(** The loop variables [result], [currentRole] ([null] is [None]) and
    [currentText]. *)
Record Acc : Type := mkAcc {
  result : list Utterance;
  currentRole : option string;
  currentText : string
}.

Definition init : Acc := mkAcc [] None "".

(** [item.role !== currentRole] *)
Definition roleDiffers (r : string) (cur : option string) : bool :=
  match cur with
  | None => true
  | Some r' => negb (String.eqb r r')
  end.

(** [if (currentRole && currentText.trim()) result.push({role: currentRole,
    text: currentText.trim()})], at lines 497-502 and 523-528. *)
Definition pushCurrent (st : Acc) : list Utterance :=
  match currentRole st with
  | Some r =>
      if truthy r && truthy (trim (currentText st))
      then result st ++ [mkItem r (trim (currentText st))]
      else result st
  | None => result st
  end.

(** One iteration of the [for] loop (lines 487-519). *)
Definition step (st : Acc) (item : Item) : Acc :=
  if negb (truthy (role item)) || negb (truthy (text item)) then st
  else if roleDiffers (role item) (currentRole st) then
    mkAcc (pushCurrent st) (Some (role item)) (text item)
  else if Nat.ltb (String.length (currentText st)) (String.length (text item))
          && startsWith (text item) (trim (currentText st)) then
    mkAcc (result st) (currentRole st) (text item)
  else if negb (includes (currentText st) (text item))
          && truthy (trim (text item)) then
    mkAcc (result st) (currentRole st) (currentText st ++ " " ++ text item)
  else st.

(** The whole loop, from a given state. *)
Definition ingest (st : Acc) (items : list Item) : Acc :=
  fold_left step items st.

Definition formatVapiTranscript (transcriptArray : list Item) : list Utterance :=
  match transcriptArray with
  | [] => []
  | _ => pushCurrent (ingest init transcriptArray)
  end.

(** States the loop can be in: [init] and whatever [step] makes of them. *)
Inductive reachable : Acc -> Prop :=
| reach_init : reachable init
| reach_step st item : reachable st -> reachable (step st item).

(** ** formatTranscriptForLLM *)

Definition nl : string := String (ascii_of_nat 10) EmptyString.

Definition header : string := "INTERVIEW TRANSCRIPT:" ++ nl ++ nl.

Definition speaker (message : Utterance) : string :=
  if String.eqb (role message) "assistant" then "AI INTERVIEWER" else "CANDIDATE".

(** The template literal [`${speaker}: ${message.text}\n\n`]. *)
Definition renderLine (message : Utterance) : string :=
  speaker message ++ ": " ++ text message ++ nl ++ nl.

(** [header] followed by the lines of [messages], as the [forEach] appends
    them. *)
Definition render (messages : list Utterance) : string :=
  fold_left (fun acc message => acc ++ renderLine message) messages header.

Definition formatTranscriptForLLM (transcriptArray : list Item) : string :=
  render (formatVapiTranscript transcriptArray).

(** The document as a text: one line per utterance, in order, after the
    header. *)
Fixpoint documentLines (messages : list Utterance) : string :=
  match messages with
  | [] => EmptyString
  | message :: rest => renderLine message ++ documentLines rest
  end.

Definition document (messages : list Utterance) : string :=
  header ++ documentLines messages.

(** ** The component's state and its event handlers *)

(** React state of [Interview] that the handlers read or write, together with
    the log of documents handed to [run], that is to [evaluateInterview]
    followed by the performance update. *)
Record Session : Type := mkSession {
  vapi : bool;                 (* the Vapi instance has been created *)
  isConnected : bool;
  isSpeaking : bool;
  transcript : list Item;
  dispatched : list string
}.

Definition mounted : Session := mkSession false false false [] [].

Inductive Event : Type :=
| Mount                                   (* the effect that creates the Vapi instance *)
| StartCall                               (* click on the start button *)
| CallStart                               (* "call-start" *)
| CallEnd                                 (* "call-end" *)
| SpeechStart                             (* "speech-start" *)
| SpeechEnd                               (* "speech-end" *)
| TranscriptMessage (r t : string)        (* "message" of type "transcript" *)
| OtherMessage                            (* "message" of another type *)
| VapiError                               (* "error" *)
| EndCall.                                (* click on the end button *)

(** [endCall] (lines 599-630). *)
Definition endCall (s : Session) : Session :=
  if vapi s then
    let formattedResult := formatVapiTranscript (transcript s) in
    let transcriptString := formatTranscriptForLLM formattedResult in
    mkSession (vapi s) (isConnected s) (isSpeaking s) (transcript s)
              (dispatched s ++ [transcriptString])
  else s.

Definition handle (s : Session) (e : Event) : Session :=
  match e with
  | Mount => mkSession true (isConnected s) (isSpeaking s) (transcript s) (dispatched s)
  | StartCall => s
  | CallStart => mkSession (vapi s) true (isSpeaking s) (transcript s) (dispatched s)
  | CallEnd => mkSession (vapi s) false false (transcript s) (dispatched s)
  | SpeechStart => mkSession (vapi s) (isConnected s) true (transcript s) (dispatched s)
  | SpeechEnd => mkSession (vapi s) (isConnected s) false (transcript s) (dispatched s)
  | TranscriptMessage r t =>
      mkSession (vapi s) (isConnected s) (isSpeaking s)
                (transcript s ++ [mkItem r t]) (dispatched s)
  | OtherMessage => s
  | VapiError => s
  | EndCall => endCall s
  end.

Definition runSession (s : Session) (events : list Event) : Session :=
  fold_left handle events s.

Definition isEndCall (e : Event) : bool :=
  match e with EndCall => true | _ => false end.

Definition isCallEnd (e : Event) : bool :=
  match e with CallEnd => true | _ => false end.

(** ** The face detection interval *)

(** What the interval effect (lines 446-470) does over time: [issued] counts
    the calls of [detector.estimateFaces], [inFlight] those that have not
    settled yet, [alerts] the warnings shown. *)
Record Monitor : Type := mkMonitor {
  detector : bool;             (* the model has been loaded *)
  issued : nat;
  inFlight : nat;
  alerts : nat
}.

Inductive MonitorEvent : Type :=
| ModelLoaded                             (* [setDetector(detector)] *)
| Tick (videoReady : bool)                (* the 1000 ms interval fires; the flag is
                                             [webcamRef.current && video && video.readyState === 4] *)
| Resolved (faces : nat)                  (* a pending [estimateFaces] resolves *)
| Rejected.                               (* a pending [estimateFaces] throws *)

(** [detectFaces] up to its [await]. *)
Definition detectFaces (m : Monitor) (videoReady : bool) : Monitor :=
  if videoReady
  then mkMonitor (detector m) (S (issued m)) (S (inFlight m)) (alerts m)
  else m.

Definition monitorStep (m : Monitor) (e : MonitorEvent) : Monitor :=
  match e with
  | ModelLoaded => mkMonitor true (issued m) (inFlight m) (alerts m)
  | Tick videoReady => if detector m then detectFaces m videoReady else m
  | Resolved faces =>
      mkMonitor (detector m) (issued m) (pred (inFlight m))
                (if Nat.eqb faces 0 then S (alerts m) else alerts m)
  | Rejected => mkMonitor (detector m) (issued m) (pred (inFlight m)) (alerts m)
  end.

Definition runMonitor (m : Monitor) (events : list MonitorEvent) : Monitor :=
  fold_left monitorStep events m.

(** ** Predicates used in the statements *)

(** A finalized utterance as both push sites produce it. *)
Definition normalized (u : Utterance) : Prop :=
  role u <> "" /\ text u <> "" /\ trim (text u) = text u.

(** Two neighbours of the list with the same role and the same text. *)
Fixpoint adjacentDuplicate (l : list Utterance) : bool :=
  match l with
  | u :: ((v :: _) as tl) =>
      (String.eqb (role u) (role v) && String.eqb (text u) (text v))
      || adjacentDuplicate tl
  | _ => false
  end.

(** Two neighbours of the list with the same role. *)
Fixpoint adjacentSameRole (l : list Utterance) : bool :=
  match l with
  | u :: ((v :: _) as tl) => String.eqb (role u) (role v) || adjacentSameRole tl
  | _ => false
  end.

(** The fragment passes the guard of line 490. *)
Definition accepted (f : Fragment) : bool := truthy (role f) && truthy (text f).

(** The fragment's text is not empty but trims to the empty string. *)
Definition whitespaceOnly (f : Fragment) : bool :=
  truthy (text f) && negb (truthy (trim (text f))).

(** [nonBlank f]: the fragment survives the removal of the fragments whose text
    trims to the empty string. *)
Definition nonBlank (f : Fragment) : bool := truthy (trim (text f)).

(** Every whitespace-only fragment that passes the guard carries the role of
    the nearest earlier accepted fragment that is not blank ([last]). *)
Fixpoint blanksRepeatSpeaker (last : option string) (frs : list Fragment) : bool :=
  match frs with
  | [] => true
  | f :: frs' =>
      if accepted f then
        if nonBlank f then blanksRepeatSpeaker (Some (role f)) frs'
        else match last with
             | Some r => String.eqb r (role f) && blanksRepeatSpeaker last frs'
             | None => false
             end
      else blanksRepeatSpeaker last frs'
  end.

(** ** Loop invariants *)

(** The accumulator, when open, holds a text that is not blank. *)
Definition solid (st : Acc) : Prop :=
  forall R, currentRole st = Some R -> blank (currentText st) = false.

(** Role of the last utterance of a list. *)
Definition lastRole (l : list Utterance) : option string :=
  match rev l with
  | [] => None
  | u :: _ => Some (role u)
  end.

(** State of the loop on a stream without whitespace-only fragments: the
    accumulator is not blank, the closed turns alternate, and the last closed
    turn is not of the accumulator's role. *)
Definition alternating (st : Acc) : Prop :=
  adjacentSameRole (result st) = false /\
  match currentRole st with
  | None => result st = []
  | Some R =>
      R <> "" /\ blank (currentText st) = false
      /\ roleDiffers R (lastRole (result st)) = true
  end.

(** ** Further vocabulary for streams and events *)

(** The fragment passes the guard and its text is not blank: it carries
    something a turn can be made of. *)
Definition carriesText (f : Fragment) : bool := truthy (role f) && nonBlank f.

(** Successive partial hypotheses of one utterance: every text is strictly
    longer than the one before and starts with its trim (the test of lines
    510-513). *)
Fixpoint growing (x : string) (xs : list string) : bool :=
  match xs with
  | [] => true
  | y :: ys =>
      Nat.ltb (String.length x) (String.length y) && startsWith y (trim x)
      && growing y ys
  end.

(** Roles of the closed turns and of the accumulator all satisfy [S]. *)
Definition rolesFrom (S : string -> Prop) (st : Acc) : Prop :=
  Forall (fun u => S (role u)) (result st)
  /\ forall R, currentRole st = Some R -> S R.

(** The entries that the ["message"] listener appends during a run. *)
Fixpoint messagesOf (events : list Event) : list Item :=
  match events with
  | [] => []
  | TranscriptMessage r t :: rest => mkItem r t :: messagesOf rest
  | _ :: rest => messagesOf rest
  end.

(** A detection that resolves with no face. *)
Definition isEmptyDetection (e : MonitorEvent) : bool :=
  match e with
  | Resolved 0 => true
  | _ => false
  end.

(** ** Regular expressions of the form validation

    The two patterns of [validateForm] ([frontend/src/main.jsx], lines 102 and
    108) only use character classes, concatenation, [+] and [{10}]; they are
    given as syntax trees and run by derivatives. *)

Inductive regex : Type :=
| Void
| Eps
| Class (p : ascii -> bool)
| Cat (r1 r2 : regex)
| Alt (r1 r2 : regex)
| Star (r : regex).

(** [r+] *)
Definition Plus (r : regex) : regex := Cat r (Star r).

(** [r{n}] *)
Fixpoint Times (n : nat) (r : regex) : regex :=
  match n with
  | 0 => Eps
  | S n' => Cat r (Times n' r)
  end.

Fixpoint nullable (r : regex) : bool :=
  match r with
  | Void => false
  | Eps => true
  | Class _ => false
  | Cat r1 r2 => nullable r1 && nullable r2
  | Alt r1 r2 => nullable r1 || nullable r2
  | Star _ => true
  end.

Fixpoint deriv (c : ascii) (r : regex) : regex :=
  match r with
  | Void => Void
  | Eps => Void
  | Class p => if p c then Eps else Void
  | Cat r1 r2 =>
      Alt (Cat (deriv c r1) r2) (if nullable r1 then deriv c r2 else Void)
  | Alt r1 r2 => Alt (deriv c r1) (deriv c r2)
  | Star r1 => Cat (deriv c r1) (Star r1)
  end.

(** The whole of [s] matches [r]: [/^r$/.test(s)]. *)
Fixpoint fullMatch (r : regex) (s : string) : bool :=
  match s with
  | EmptyString => nullable r
  | String c s' => fullMatch (deriv c r) s'
  end.

Definition anyChar : regex := Class (fun _ => true).

(** Some substring of [s] matches [r]: [/r/.test(s)] for a pattern without
    anchors. *)
Definition test (r : regex) (s : string) : bool :=
  fullMatch (Cat (Star anyChar) (Cat r (Star anyChar))) s.

(** The strings of a pattern. *)
Inductive Matches : regex -> string -> Prop :=
| MEps : Matches Eps ""
| MClass p c : p c = true -> Matches (Class p) (String c "")
| MCat r1 r2 s1 s2 :
    Matches r1 s1 -> Matches r2 s2 -> Matches (Cat r1 r2) (s1 ++ s2)
| MAltL r1 r2 s : Matches r1 s -> Matches (Alt r1 r2) s
| MAltR r1 r2 s : Matches r2 s -> Matches (Alt r1 r2) s
| MStarNil r : Matches (Star r) ""
| MStarApp r s1 s2 :
    Matches r s1 -> Matches (Star r) s2 -> Matches (Star r) (s1 ++ s2).

(** [\d] *)
Definition isDigit (c : ascii) : bool :=
  (N.leb 48 (N_of_ascii c) && N.leb (N_of_ascii c) 57)%bool.

(** [\S] *)
Definition nonSpace (c : ascii) : bool := negb (isWhiteSpace c).

(** [/\S+@\S+\.\S+/] *)
Definition emailPattern : regex :=
  Cat (Plus (Class nonSpace))
      (Cat (Class (Ascii.eqb "@"))
           (Cat (Plus (Class nonSpace))
                (Cat (Class (Ascii.eqb "."))
                     (Plus (Class nonSpace))))).

(** [/^\d{10}$/], to be used with [fullMatch]. *)
Definition tenDigits : regex := Times 10 (Class isDigit).

(** [s.replace(/\D/g, "")] *)
Fixpoint removeNonDigits (s : string) : string :=
  match s with
  | EmptyString => EmptyString
  | String c s' =>
      if isDigit c then String c (removeNonDigits s') else removeNonDigits s'
  end.

(** Every code unit of [s] satisfies [p]. *)
Fixpoint allChars (p : ascii -> bool) (s : string) : bool :=
  match s with
  | EmptyString => true
  | String c s' => p c && allChars p s'
  end.

(** ** The registration form ([Form], [frontend/src/main.jsx] lines 27-219) *)

Module Form.

Record FormData : Type := mkFormData {
  name : string;
  email : string;
  phoneNumber : string;
  performanceDetails : string
}.

(** The [errors] object: one optional message per key. *)
Record Errors : Type := mkErrors {
  eName : option string;
  eEmail : option string;
  ePhoneNumber : option string;
  eProfilePhoto : option string;
  eSubmit : option string
}.

Definition noErrors : Errors := mkErrors None None None None None.

(** [Object.keys(errors).length] *)
Definition keysLength (e : Errors) : nat :=
  let present (o : option string) := match o with Some _ => 1 | None => 0 end in
  present (eName e) + present (eEmail e) + present (ePhoneNumber e)
  + present (eProfilePhoto e) + present (eSubmit e).

(** [validateForm] (lines 93-113). *)
Definition validateForm (formData : FormData) : Errors :=
  mkErrors
    (if negb (truthy (trim (name formData))) then Some "Name is required"
     else None)
    (if negb (truthy (trim (email formData))) then Some "Email is required"
     else if negb (test emailPattern (email formData))
     then Some "Please enter a valid email address"
     else None)
    (if negb (truthy (trim (phoneNumber formData)))
     then Some "Phone number is required"
     else if negb (fullMatch tenDigits (removeNonDigits (phoneNumber formData)))
     then Some "Phone number must be 10 digits"
     else None)
    None None.

(** A [File] of the file input, as far as the component reads it. *)
Record File : Type := mkFile { fileType : string; fileSize : N }.

Definition allowedTypes : list string :=
  ["image/jpeg"; "image/jpg"; "image/png"; "image/gif"]%list.

(** [5 * 1024 * 1024] *)
Definition maxSize : N := (5 * 1024 * 1024)%N.

(** React state of the form. *)
Record State : Type := mkState {
  formData : FormData;
  profilePhoto : option File;
  errors : Errors;
  isLoading : bool;
  profilePhotoPath : option string
}.

Definition setErrors (st : State) (e : Errors) : State :=
  mkState (formData st) (profilePhoto st) e (isLoading st) (profilePhotoPath st).

Definition withPhotoError (e : Errors) (message : string) : Errors :=
  mkErrors (eName e) (eEmail e) (ePhoneNumber e) (Some message) (eSubmit e).

Definition onlySubmitError (message : string) : Errors :=
  mkErrors None None None None (Some message).

(** [handleFileChange] (lines 50-81) up to the asynchronous preview; [None]
    is an empty selection. *)
Definition handleFileChange (st : State) (file : option File) : State :=
  match file with
  | None => st
  | Some f =>
      if negb (existsb (String.eqb (fileType f)) allowedTypes) then
        setErrors st (withPhotoError (errors st)
                        "Please select a valid image file (JPEG, PNG, or GIF)")
      else if N.ltb maxSize (fileSize f) then
        setErrors st (withPhotoError (errors st) "File size must be less than 5MB")
      else
        let cleared :=
          match eProfilePhoto (errors st) with
          | Some (String _ _) => withPhotoError (errors st) ""
          | _ => errors st
          end in
        mkState (formData st) (Some f) cleared (isLoading st) (profilePhotoPath st)
  end.

(** How the request to the users API ends. *)
Inductive PostResult : Type :=
| Created (id : string)                   (* the response carries [data.id] *)
| ServerError (message : string)          (* [err.response] is set *)
| NoResponse                              (* [err.request] is set *)
| OtherError.

(** How the upload of the profile photo ends. *)
Inductive UploadResult : Type :=
| Uploaded (file_path : string)
| UploadFailed.

(** What [handleSubmit] has done when it settles. *)
Record Outcome : Type := mkOutcome {
  final : State;
  posted : bool;                                   (* the users API was called *)
  uploadTried : bool;                              (* the upload endpoint was called *)
  onSubmit : option (string * string * option string)  (* arguments of [onSubmit] *)
}.

(** [handleSubmit] (lines 160-219); the two results are what the network
    answers if it is asked. *)
Definition handleSubmit (st : State) (post : PostResult) (upload : UploadResult)
  : Outcome :=
  let validationErrors := validateForm (formData st) in
  if Nat.ltb 0 (keysLength validationErrors) then
    mkOutcome (setErrors st validationErrors) false false None
  else
    match post with
    | Created id =>
        match profilePhoto st with
        | Some _ =>
            match upload with
            | Uploaded path =>
                mkOutcome
                  (mkState (formData st) (profilePhoto st) (errors st) false (Some path))
                  true true (Some (name (formData st), id, Some path))
            | UploadFailed =>
                mkOutcome
                  (mkState (formData st) (profilePhoto st)
                     (onlySubmitError
                        "Form submitted but profile photo upload failed. Please try uploading again later.")
                     false (profilePhotoPath st))
                  true true (Some (name (formData st), id, None))
            end
        | None =>
            mkOutcome
              (mkState (formData st) (profilePhoto st) (errors st) false
                 (profilePhotoPath st))
              true false (Some (name (formData st), id, None))
        end
    | ServerError message =>
        mkOutcome
          (mkState (formData st) (profilePhoto st)
             (onlySubmitError ("Server error: " ++ message)) false
             (profilePhotoPath st))
          true false None
    | NoResponse =>
        mkOutcome
          (mkState (formData st) (profilePhoto st)
             (onlySubmitError "Unable to connect to server. Please try again.")
             false (profilePhotoPath st))
          true false None
    | OtherError =>
        mkOutcome
          (mkState (formData st) (profilePhoto st)
             (onlySubmitError "An error occurred. Please try again.")
             false (profilePhotoPath st))
          true false None
    end.

End Form.

(** ** Face validation ([Validate], [frontend/src/components/Validate.jsx]
       lines 33-243) *)

Module Validate.

(** React state of the component; the captured photo is a blob of which only
    the presence matters. *)
Record State : Type := mkState {
  isLoading : bool;
  capturedPhoto : bool;
  isCameraOn : bool
}.

(** How the upload of the live photo ends. *)
Inductive UploadResult : Type :=
| UploadOk (file_path : string)           (* [response.ok], with its JSON body *)
| UploadRefused                           (* a response that is not [ok] *)
| UploadThrows.                           (* [fetch] or [json()] rejects *)

(** How the face recognition request ends. *)
Inductive RecognitionResult : Type :=
| Recognized                              (* [validateResult.success] is truthy *)
| NotRecognized
| RecognitionThrows.

(** What [sendPhotoToServer] has done when it settles. *)
Record Outcome : Type := mkOutcome {
  final : State;
  alerts : list string;
  uploadSent : bool;
  recognitionSent : option (string * string);  (* profile path, live path *)
  validated : bool                             (* [onValidationSuccess] was called *)
}.

(** [sendPhotoToServer] (lines 164-235); [photoPath] and the callback are the
    props, the two results are what the server answers if it is asked. *)
Definition sendPhotoToServer (st : State) (photoPath : string)
    (hasCallback : bool) (upload : UploadResult)
    (recognition : RecognitionResult) : Outcome :=
  if negb (capturedPhoto st) then
    mkOutcome st ["Please capture a photo first!"] false None false
  else
    let failed := "Failed to send photo. Please try again." in
    match upload with
    | UploadOk file_path =>
        match recognition with
        | Recognized =>
            mkOutcome (mkState false false (isCameraOn st))
              ["Photo sent successfully!"] true
              (Some (photoPath, file_path)) hasCallback
        | NotRecognized =>
            mkOutcome (mkState false false (isCameraOn st))
              ["Photo sent successfully!";
               "Face validation failed. Please ensure you're in good lighting and retake the photo."]
              true (Some (photoPath, file_path)) false
        | RecognitionThrows =>
            mkOutcome (mkState false (capturedPhoto st) (isCameraOn st))
              ["Photo sent successfully!"; failed] true
              (Some (photoPath, file_path)) false
        end
    | UploadRefused =>
        mkOutcome (mkState false (capturedPhoto st) (isCameraOn st))
          [failed] true None false
    | UploadThrows =>
        mkOutcome (mkState false (capturedPhoto st) (isCameraOn st))
          [failed] true None false
    end.

End Validate.

(** ** The application shell ([App], [frontend/src/App.jsx]) *)

Module App.

(** Values that reach the state of [App]: a missing argument is
    [undefined]. *)
Inductive JsValue : Type :=
| Undefined
| Null
| Str (s : string).

Inductive View : Type := ViewForm | ViewValidate | ViewInterview.

Record State : Type := mkState {
  candidateName : JsValue;
  view : View;
  userId : JsValue;
  photoPath : JsValue;
  position : JsValue
}.

Definition initial : State := mkState (Str "") ViewForm Null Null (Str "").

(** The assistant ids of the environment. *)
Record Env : Type := mkEnv {
  VITE_VAPI_RN_ASSISTANT_ID : string;
  VITE_VAPI_LPN_ASSISTANT_ID : string;
  VITE_VAPI_HCA_ASSISTANT_ID : string
}.

(** [getAssistantId] (lines 35-46): a [switch] with strict equality. *)
Definition getAssistantId (env : Env) (st : State) : string :=
  match position st with
  | Str p =>
      if String.eqb p "RN" then VITE_VAPI_RN_ASSISTANT_ID env
      else if String.eqb p "LPN" then VITE_VAPI_LPN_ASSISTANT_ID env
      else if String.eqb p "HCA" then VITE_VAPI_HCA_ASSISTANT_ID env
      else ""
  | _ => ""
  end.

(** [handleFormSubmit (name, id, role, photoPath)] (lines 56-62). *)
Definition handleFormSubmit (st : State) (name id role photoPath : JsValue)
  : State :=
  mkState name ViewValidate id photoPath role.

(** [handleValidationSuccess] (lines 67-69). *)
Definition handleValidationSuccess (st : State) : State :=
  mkState (candidateName st) ViewInterview (userId st) (photoPath st) (position st).

(** The call [onSubmit(formData.name, res.data.id, uploadedPhotoPath)] of the
    form (main.jsx line 201) as it reaches [handleFormSubmit]: three
    arguments, the fourth parameter stays [undefined]. *)
Definition onSubmit (st : State) (args : string * string * option string)
  : State :=
  let '(name, id, uploadedPhotoPath) := args in
  handleFormSubmit st (Str name) (Str id)
    (match uploadedPhotoPath with Some path => Str path | None => Null end)
    Undefined.

End App.

(** ** The session as the page lets it be driven *)

(** The End Interview button (line 1049) is in the connected branch of the
    ternary at line 646: a click on it, that is a call of [endCall], can only
    happen while [isConnected] holds.  The listeners are those of
    [handle]. *)
Definition uiHandle (s : Session) (e : Event) : Session :=
  match e with
  | EndCall => if isConnected s then endCall s else s
  | _ => handle s e
  end.

Definition runUI (s : Session) (events : list Event) : Session :=
  fold_left uiHandle events s.

Definition isCallStart (e : Event) : bool :=
  match e with CallStart => true | _ => false end.

(** The clicks on End Interview of a run that find the button on the page;
    [connected] is [isConnected] at the start of the run. *)
Fixpoint effectiveClicks (connected : bool) (events : list Event) : nat :=
  match events with
  | [] => 0
  | CallStart :: rest => effectiveClicks true rest
  | CallEnd :: rest => effectiveClicks false rest
  | EndCall :: rest => (if connected then 1 else 0) + effectiveClicks connected rest
  | _ :: rest => effectiveClicks connected rest
  end.

(** * Properties *)

(** ** Strings *)

Section StringFacts.

Lemma truthy_true (s : string) : truthy s = true <-> s <> "".
Proof. destruct s; simpl; split; congruence. Qed.

Lemma truthy_false (s : string) : truthy s = false <-> s = "".
Proof. destruct s; simpl; split; congruence. Qed.

Lemma trimStart_head (s r : string) (c : ascii) :
  trimStart s = String c r -> isWhiteSpace c = false.
Proof.
  induction s as [|a s IH]; simpl; [discriminate|].
  destruct (isWhiteSpace a) eqn:Ha; [exact IH|].
  intros E; injection E as <- _; exact Ha.
Qed.

Lemma trimStart_blank (s : string) : trimStart s = "" <-> blank s = true.
Proof.
  induction s as [|a s IH]; simpl; [tauto|].
  destruct (isWhiteSpace a); simpl; [exact IH|].
  split; discriminate.
Qed.

Lemma trimEnd_head (s : string) (c : ascii) :
  isWhiteSpace c = false -> exists r, trimEnd (String c s) = String c r.
Proof.
  intros Hc; simpl. destruct (trimEnd s) as [|b t]; rewrite ?Hc; eauto.
Qed.

Lemma trimEnd_idem (s : string) : trimEnd (trimEnd s) = trimEnd s.
Proof.
  induction s as [|a s IH]; simpl; [reflexivity|].
  destruct (trimEnd s) as [|b t] eqn:E.
  - destruct (isWhiteSpace a) eqn:Ha; simpl; rewrite ?Ha; reflexivity.
  - change (trimEnd (String a (String b t)))
      with (match trimEnd (String b t) with
            | "" => if isWhiteSpace a then "" else String a ""
            | u => String a u
            end).
    rewrite IH. reflexivity.
Qed.

Lemma trimStart_fixed (r : string) (c : ascii) :
  isWhiteSpace c = false -> trimStart (String c r) = String c r.
Proof. intros Hc; simpl; rewrite Hc; reflexivity. Qed.

Lemma trim_idem (s : string) : trim (trim s) = trim s.
Proof.
  unfold trim. destruct (trimStart s) as [|c r] eqn:E; [reflexivity|].
  pose proof (trimStart_head _ _ _ E) as Hc.
  destruct (trimEnd_head r c Hc) as [r' Hr]. rewrite Hr.
  rewrite (trimStart_fixed _ _ Hc), <- Hr. apply trimEnd_idem.
Qed.

Lemma trim_blank (s : string) : trim s = "" <-> blank s = true.
Proof.
  rewrite <- trimStart_blank. unfold trim.
  destruct (trimStart s) as [|c r] eqn:E; [tauto|].
  destruct (trimEnd_head r c (trimStart_head _ _ _ E)) as [r' ->].
  split; discriminate.
Qed.

Lemma trim_head (s r : string) (c : ascii) :
  trim s = String c r -> isWhiteSpace c = false.
Proof.
  unfold trim. destruct (trimStart s) as [|a q] eqn:E; [discriminate|].
  pose proof (trimStart_head _ _ _ E) as Ha.
  destruct (trimEnd_head q a Ha) as [q' ->].
  intros H; injection H as <- _; exact Ha.
Qed.

Lemma blank_app (a b : string) : blank (a ++ b) = blank a && blank b.
Proof.
  induction a as [|c a IH]; simpl; [reflexivity|].
  rewrite IH, andb_assoc; reflexivity.
Qed.

Lemma truthy_trim_blank (s : string) : truthy (trim s) = negb (blank s).
Proof.
  destruct (blank s) eqn:B.
  - apply trim_blank in B. rewrite B; reflexivity.
  - simpl. apply truthy_true. intros E. apply trim_blank in E. congruence.
Qed.

(** A blank string never starts with a non-empty trimmed string. *)
Lemma blank_not_startsWith (x t : string) :
  blank x = true -> trim t <> "" -> startsWith x (trim t) = false.
Proof.
  intros Bx Ht. destruct (trim t) as [|c r] eqn:E; [congruence|].
  pose proof (trim_head _ _ _ E) as Hc.
  unfold startsWith. destruct x as [|a x]; simpl; [reflexivity|].
  simpl in Bx. apply andb_prop in Bx as [Ba _].
  destruct (ascii_dec c a) as [->|]; [congruence|reflexivity].
Qed.

End StringFacts.

Section Substrings.

Lemma string_length_app (a b : string) :
  String.length (a ++ b) = String.length a + String.length b.
Proof. induction a as [|c a IH]; simpl; [reflexivity|now rewrite IH]. Qed.

Lemma prefix_app (p s : string) :
  String.prefix p s = true <-> exists b, s = p ++ b.
Proof.
  revert s; induction p as [|c p IH]; intros s.
  - split; [exists s; reflexivity|destruct s; reflexivity].
  - destruct s as [|a s]; simpl.
    + split; [discriminate|intros [b Hb]; discriminate].
    + destruct (ascii_dec c a) as [->|Hn].
      * rewrite IH. split; intros [b Hb]; exists b; [now rewrite Hb|congruence].
      * split; [discriminate|intros [b Hb]; congruence].
Qed.

(** [includes] is the substring test of [String.prototype.includes]. *)
Lemma includes_spec (s t : string) :
  includes s t = true <-> exists a b, s = a ++ t ++ b.
Proof.
  induction s as [|c s IH].
  - unfold includes. rewrite orb_false_r, prefix_app. split.
    + intros [b Hb]. exists "", b. exact Hb.
    + intros [a [b Hb]]. destruct a; [exists b; exact Hb|discriminate].
  - change (includes (String c s) t)
      with (String.prefix t (String c s) || includes s t).
    rewrite orb_true_iff, IH, prefix_app. split.
    + intros [[b Hb]|[a [b Hb]]].
      * exists "", b. exact Hb.
      * exists (String c a), b. simpl. now rewrite Hb.
    + intros [a [b Hb]]. destruct a as [|d a].
      * left. exists b. exact Hb.
      * right. simpl in Hb. injection Hb as _ Hb. exists a, b. exact Hb.
Qed.

End Substrings.

(** ** One step of the loop *)

(** Case split on every test of the body of the loop. *)
Ltac case_branches :=
  repeat match goal with
         | |- context [if ?b then _ else _] => destruct b
         end.

Section StepFacts.

Lemma step_skip (st : Acc) (f : Fragment) :
  accepted f = false -> step st f = st.
Proof.
  unfold accepted, step. intros H.
  apply andb_false_iff in H as [-> | ->]; simpl; [reflexivity|].
  now rewrite orb_true_r.
Qed.

Lemma step_accepted (st : Acc) (f : Fragment) :
  accepted f = true ->
  step st f =
  if roleDiffers (role f) (currentRole st) then
    mkAcc (pushCurrent st) (Some (role f)) (text f)
  else if Nat.ltb (String.length (currentText st)) (String.length (text f))
          && startsWith (text f) (trim (currentText st)) then
    mkAcc (result st) (currentRole st) (text f)
  else if negb (includes (currentText st) (text f)) && truthy (trim (text f)) then
    mkAcc (result st) (currentRole st) (currentText st ++ " " ++ text f)
  else st.
Proof.
  unfold accepted, step. intros H. apply andb_prop in H as [-> ->]. reflexivity.
Qed.

(** After an accepted fragment the accumulator carries that fragment's role. *)
Lemma step_role (st : Acc) (f : Fragment) :
  accepted f = true -> currentRole (step st f) = Some (role f).
Proof.
  intros H. rewrite (step_accepted _ _ H).
  destruct (roleDiffers (role f) (currentRole st)) eqn:D; [reflexivity|].
  assert (currentRole st = Some (role f)) as E.
  { unfold roleDiffers in D. destruct (currentRole st) as [r|]; [|discriminate].
    apply negb_false_iff, String.eqb_eq in D. now subst. }
  case_branches;
    simpl; exact E.
Qed.

(** The role of an open accumulator is a truthy string. *)
Lemma reachable_role (st : Acc) :
  reachable st -> forall R, currentRole st = Some R -> R <> "".
Proof.
  induction 1 as [|st f _ IH]; intros R; simpl; [discriminate|].
  destruct (accepted f) eqn:A.
  - rewrite (step_role _ _ A). intros E; injection E as <-.
    apply andb_prop in A as [A _]. now apply truthy_true.
  - rewrite (step_skip _ _ A). apply IH.
Qed.

Lemma ingest_reachable (st : Acc) (frs : list Fragment) :
  reachable st -> reachable (ingest st frs).
Proof.
  revert st; induction frs as [|f frs IH]; intros st H; simpl; [exact H|].
  apply IH. now constructor.
Qed.

Lemma roleDiffers_same (R : string) : roleDiffers R (Some R) = false.
Proof. simpl. now rewrite String.eqb_refl. Qed.

Lemma roleDiffers_other (r R : string) : r <> R -> roleDiffers r (Some R) = true.
Proof. intros H. simpl. apply negb_true_iff. now apply String.eqb_neq. Qed.

End StepFacts.

(** ** The per-fragment rules *)

(** C1 (progressive growth).  In every state of the loop whose accumulator is
    open with role [R] and text [T], a fragment of role [R] whose text is
    strictly longer than [T] and starts with [trim T] replaces the accumulator
    text and leaves [result] as it is; and the stream
    [{Interviewer,"Hello"}, {Interviewer,"Hello there"}] consolidates to the
    single utterance [{Interviewer,"Hello there"}]. *)
Theorem progressive_growth (st : Acc) (f : Fragment) (R T : string) :
  reachable st ->
  currentRole st = Some R -> currentText st = T ->
  role f = R ->
  String.length T < String.length (text f) ->
  startsWith (text f) (trim T) = true ->
  step st f = mkAcc (result st) (Some R) (text f)
  /\ formatVapiTranscript
       [mkItem Interviewer "Hello"; mkItem Interviewer "Hello there"]
     = [mkItem Interviewer "Hello there"].
Proof.
  intros Hr Hrole Htext Hf Hlen Hpre. split; [|reflexivity].
  assert (accepted f = true) as A.
  { unfold accepted. apply andb_true_intro; split; apply truthy_true.
    - rewrite Hf. exact (reachable_role _ Hr _ Hrole).
    - intros E. rewrite E in Hlen. simpl in Hlen. lia. }
  rewrite (step_accepted _ _ A), Hrole, Htext, Hf, roleDiffers_same.
  apply Nat.ltb_lt in Hlen. rewrite Hlen, Hpre. reflexivity.
Qed.

Lemma progressive_growth_witness :
  step (step init (mkItem Interviewer "Hello")) (mkItem Interviewer "Hello there")
  = mkAcc [] (Some Interviewer) "Hello there"
  /\ formatVapiTranscript
       [mkItem Interviewer "Hello"; mkItem Interviewer "Hello there"]
     = [mkItem Interviewer "Hello there"].
Proof.
  apply (progressive_growth (step init (mkItem Interviewer "Hello"))
           (mkItem Interviewer "Hello there") Interviewer "Hello").
  - apply reach_step, reach_init.
  - reflexivity.
  - reflexivity.
  - reflexivity.
  - simpl; lia.
  - reflexivity.
Defined.

(** C2 (speaker switch flush).  In every state of the loop whose accumulator
    is open with role [R] and a text whose trim is not empty, a fragment that
    passes the guard of the loop and whose role differs from [R] appends
    [{R, trim T}] to [result] and opens a new accumulator with the fragment's
    role and text; and [{Interviewer,"Hello"}, {Candidate,"Hi"}] consolidates
    to those two utterances. *)
Theorem speaker_switch_flush (st : Acc) (f : Fragment) (R T : string) :
  reachable st ->
  currentRole st = Some R -> currentText st = T -> trim T <> "" ->
  role f <> "" -> text f <> "" -> role f <> R ->
  step st f = mkAcc (result st ++ [mkItem R (trim T)]) (Some (role f)) (text f)
  /\ formatVapiTranscript [mkItem Interviewer "Hello"; mkItem Candidate "Hi"]
     = [mkItem Interviewer "Hello"; mkItem Candidate "Hi"].
Proof.
  intros Hr Hrole Htext Htrim Hfr Hft Hdiff. split; [|reflexivity].
  assert (accepted f = true) as A.
  { unfold accepted. apply andb_true_intro; split; now apply truthy_true. }
  rewrite (step_accepted _ _ A), Hrole, (roleDiffers_other _ _ Hdiff).
  unfold pushCurrent. rewrite Hrole, Htext.
  apply truthy_true in Htrim. rewrite Htrim.
  pose proof (reachable_role _ Hr _ Hrole) as HR.
  apply truthy_true in HR. rewrite HR. reflexivity.
Qed.

Lemma speaker_switch_flush_witness :
  step (step init (mkItem Interviewer "Hello")) (mkItem Candidate "Hi")
  = mkAcc [mkItem Interviewer "Hello"] (Some Candidate) "Hi"
  /\ formatVapiTranscript [mkItem Interviewer "Hello"; mkItem Candidate "Hi"]
     = [mkItem Interviewer "Hello"; mkItem Candidate "Hi"].
Proof.
  apply (speaker_switch_flush (step init (mkItem Interviewer "Hello"))
           (mkItem Candidate "Hi") Interviewer "Hello").
  - apply reach_step, reach_init.
  - reflexivity.
  - reflexivity.
  - vm_compute; discriminate.
  - vm_compute; discriminate.
  - vm_compute; discriminate.
  - vm_compute; discriminate.
Defined.

(** C3 (same-role fragment that is no growth).  In every state of the loop
    whose accumulator is open with role [R] and text [T], a fragment of role
    [R] with a non-empty trimmed text (the fragments the per-fragment rules
    are about) that is not a progressive growth of [T] is appended to [T]
    after exactly one space if and only if [T] does not contain its text, and
    otherwise leaves the state as it is; the two streams of the claim
    consolidate to one utterance each. *)
Theorem same_role_no_growth (st : Acc) (f : Fragment) (R T : string) :
  reachable st ->
  currentRole st = Some R -> currentText st = T ->
  role f = R -> trim (text f) <> "" ->
  Nat.ltb (String.length T) (String.length (text f))
    && startsWith (text f) (trim T) = false ->
  (step st f = mkAcc (result st) (Some R) (T ++ " " ++ text f)
     <-> includes T (text f) = false)
  /\ (includes T (text f) = true -> step st f = st)
  /\ formatVapiTranscript [mkItem Candidate "Yes"; mkItem Candidate "Also I think so"]
     = [mkItem Candidate "Yes Also I think so"]
  /\ formatVapiTranscript [mkItem Candidate "Ready"; mkItem Candidate "Ready"]
     = [mkItem Candidate "Ready"].
Proof.
  intros Hr Hrole Htext Hf Hnb Hng.
  assert (accepted f = true) as A.
  { unfold accepted. apply andb_true_intro; split; apply truthy_true.
    - rewrite Hf. exact (reachable_role _ Hr _ Hrole).
    - intros E. rewrite E in Hnb. now apply Hnb. }
  assert (step st f =
          if includes T (text f) then st
          else mkAcc (result st) (Some R) (T ++ " " ++ text f)) as E.
  { rewrite (step_accepted _ _ A), Hrole, Htext, Hf, roleDiffers_same, Hng.
    apply truthy_true in Hnb. rewrite Hnb, andb_true_r.
    destruct (includes T (text f)); reflexivity. }
  repeat split; try reflexivity.
  - intros H. destruct (includes T (text f)); [|reflexivity].
    rewrite E in H. apply (f_equal currentText) in H. simpl in H.
    rewrite Htext in H. apply (f_equal String.length) in H.
    rewrite string_length_app in H. simpl in H. lia.
  - intros H. now rewrite E, H.
  - intros H. now rewrite E, H.
Qed.

Lemma same_role_no_growth_witness :
  (step (step init (mkItem Candidate "Yes")) (mkItem Candidate "Also I think so")
   = mkAcc [] (Some Candidate) ("Yes" ++ " " ++ "Also I think so")
     <-> includes "Yes" "Also I think so" = false)
  /\ (includes "Yes" "Also I think so" = true ->
      step (step init (mkItem Candidate "Yes")) (mkItem Candidate "Also I think so")
      = step init (mkItem Candidate "Yes"))
  /\ formatVapiTranscript [mkItem Candidate "Yes"; mkItem Candidate "Also I think so"]
     = [mkItem Candidate "Yes Also I think so"]
  /\ formatVapiTranscript [mkItem Candidate "Ready"; mkItem Candidate "Ready"]
     = [mkItem Candidate "Ready"].
Proof.
  apply (same_role_no_growth (step init (mkItem Candidate "Yes"))
           (mkItem Candidate "Also I think so") Candidate "Yes").
  - apply reach_step, reach_init.
  - reflexivity.
  - reflexivity.
  - reflexivity.
  - vm_compute; discriminate.
  - reflexivity.
Defined.

(** ** The whole loop *)

Section LoopFacts.

(** The early return on the empty array agrees with the loop. *)
Lemma format_ingest (t : list Fragment) :
  formatVapiTranscript t = pushCurrent (ingest init t).
Proof. destruct t; reflexivity. Qed.

Lemma ingest_cons (st : Acc) (f : Fragment) (t : list Fragment) :
  ingest st (f :: t) = ingest (step st f) t.
Proof. reflexivity. Qed.

(** Fragments that the guard skips can be removed from the stream. *)
Lemma ingest_filter (p : Fragment -> bool) (t : list Fragment) :
  (forall f, p f = false -> accepted f = false) ->
  forall st, ingest st (filter p t) = ingest st t.
Proof.
  intros Hp. induction t as [|f t IH]; intros st; [reflexivity|].
  cbn [filter]. destruct (p f) eqn:E.
  - rewrite !ingest_cons. apply IH.
  - rewrite ingest_cons, (step_skip _ _ (Hp _ E)). apply IH.
Qed.

Lemma roleDiffers_false (r : string) (cur : option string) :
  roleDiffers r cur = false -> cur = Some r.
Proof.
  destruct cur as [r'|]; simpl; [|discriminate].
  intros H. apply negb_false_iff, String.eqb_eq in H. now subst.
Qed.

Lemma step_solid (st : Acc) (f : Fragment) :
  solid st -> whitespaceOnly f = false -> solid (step st f).
Proof.
  intros Hs Hw. destruct (accepted f) eqn:A; [|now rewrite (step_skip _ _ A)].
  assert (blank (text f) = false) as Bf.
  { unfold whitespaceOnly in Hw. apply andb_prop in A as [_ A].
    rewrite A, truthy_trim_blank, negb_involutive in Hw. exact Hw. }
  rewrite (step_accepted _ _ A). intros R.
  destruct (roleDiffers (role f) (currentRole st)) eqn:D; simpl; [now intros _|].
  apply roleDiffers_false in D.
  destruct (_ && startsWith _ _); simpl; [now intros _|].
  destruct (_ && truthy _); simpl.
  - intros _. rewrite blank_app. cbn [append blank].
    rewrite Bf, !andb_false_r. reflexivity.
  - apply Hs.
Qed.

(** A whitespace-only fragment of the accumulator's own role changes nothing
    when the accumulator text is not blank. *)
Lemma step_blank_same_role (st : Acc) (f : Fragment) :
  nonBlank f = false ->
  currentRole st = Some (role f) -> blank (currentText st) = false ->
  step st f = st.
Proof.
  intros Hb Hrole Hsolid. destruct (accepted f) eqn:A; [|now apply step_skip].
  rewrite (step_accepted _ _ A), Hrole, roleDiffers_same.
  unfold nonBlank in Hb. rewrite Hb, andb_false_r.
  rewrite blank_not_startsWith, andb_false_r; [reflexivity| |].
  - rewrite truthy_trim_blank in Hb. now apply negb_false_iff in Hb.
  - intros E. apply trim_blank in E. congruence.
Qed.

Lemma ingest_drop_blanks (t : list Fragment) :
  forall st, solid st -> blanksRepeatSpeaker (currentRole st) t = true ->
  ingest st (filter nonBlank t) = ingest st t.
Proof.
  induction t as [|f t IH]; intros st Hs Hb; [reflexivity|].
  cbn [blanksRepeatSpeaker] in Hb. cbn [filter]. destruct (accepted f) eqn:A.
  - destruct (nonBlank f) eqn:N.
    + rewrite !ingest_cons. apply IH.
      * apply step_solid; [exact Hs|]. unfold whitespaceOnly.
        unfold nonBlank in N. now rewrite N, andb_false_r.
      * now rewrite (step_role _ _ A).
    + destruct (currentRole st) as [r|] eqn:C; [|discriminate].
      apply andb_prop in Hb as [Hr Hb]. apply String.eqb_eq in Hr. subst r.
      rewrite ingest_cons, (step_blank_same_role _ _ N C (Hs _ C)).
      apply IH; [exact Hs|now rewrite C].
  - destruct (nonBlank f); rewrite !ingest_cons, (step_skip _ _ A); now apply IH.
Qed.

End LoopFacts.

(** C4, as the code has it.  Fragments with an empty text never have an
    effect: a stream consolidates to what it consolidates to without them.  A
    stream in which every whitespace-only fragment that passes the guard
    repeats the role of the nearest earlier accepted non-blank fragment
    consolidates to what it consolidates to once all fragments whose text
    trims to the empty string are removed.  Fragment by fragment: a fragment
    with an empty text, and a fragment with a blank text that has the role of
    the open accumulator while the accumulator text is not blank, leave the
    closed turns, the current role and the accumulator text as they are. *)
Theorem blank_fragments_discarded (t : list Fragment) :
  formatVapiTranscript (filter (fun f => truthy (text f)) t)
  = formatVapiTranscript t
  /\ (blanksRepeatSpeaker None t = true ->
      formatVapiTranscript (filter nonBlank t) = formatVapiTranscript t)
  /\ (forall st f, text f = "" -> step st f = st)
  /\ (forall st f,
        nonBlank f = false ->
        currentRole st = Some (role f) -> blank (currentText st) = false ->
        step st f = st).
Proof.
  split; [|split; [|split]].
  - rewrite !format_ingest. f_equal. apply ingest_filter.
    intros f E. unfold accepted. now rewrite E, andb_false_r.
  - intros H. rewrite !format_ingest. f_equal.
    apply ingest_drop_blanks; [intros R; discriminate|exact H].
  - intros st f E. apply step_skip. unfold accepted.
    now rewrite E, andb_false_r.
  - intros st f. apply step_blank_same_role.
Qed.

Lemma blank_fragments_discarded_witness :
  formatVapiTranscript
    (filter (fun f => truthy (text f))
       [mkItem Interviewer "Hello"; mkItem Interviewer " "; mkItem Candidate "";
        mkItem Candidate "Hi"])
  = formatVapiTranscript
      [mkItem Interviewer "Hello"; mkItem Interviewer " "; mkItem Candidate "";
       mkItem Candidate "Hi"]
  /\ formatVapiTranscript
       (filter nonBlank
          [mkItem Interviewer "Hello"; mkItem Interviewer " "; mkItem Candidate "";
           mkItem Candidate "Hi"])
     = formatVapiTranscript
         [mkItem Interviewer "Hello"; mkItem Interviewer " "; mkItem Candidate "";
          mkItem Candidate "Hi"]
  /\ step (mkAcc [] (Some Interviewer) "Hello") (mkItem Candidate "")
     = mkAcc [] (Some Interviewer) "Hello"
  /\ step (mkAcc [] (Some Interviewer) "Hello") (mkItem Interviewer "  ")
     = mkAcc [] (Some Interviewer) "Hello".
Proof.
  destruct (blank_fragments_discarded
              [mkItem Interviewer "Hello"; mkItem Interviewer " ";
               mkItem Candidate ""; mkItem Candidate "Hi"]) as (H1 & H2 & H3 & H4).
  split; [exact H1|]. split; [apply H2; reflexivity|].
  split.
  - apply (H3 (mkAcc [] (Some Interviewer) "Hello") (mkItem Candidate "")).
    reflexivity.
  - apply (H4 (mkAcc [] (Some Interviewer) "Hello") (mkItem Interviewer "  "));
      reflexivity.
Defined.

(** C4 as stated fails: a whitespace-only fragment of the other speaker closes
    the open accumulator. *)
Lemma blank_fragment_counterexample :
  formatVapiTranscript
    [mkItem Interviewer "Hello"; mkItem Candidate " "; mkItem Interviewer "Hello"]
  = [mkItem Interviewer "Hello"; mkItem Interviewer "Hello"]
  /\ formatVapiTranscript
       (filter nonBlank
          [mkItem Interviewer "Hello"; mkItem Candidate " "; mkItem Interviewer "Hello"])
     = [mkItem Interviewer "Hello"].
Proof. split; reflexivity. Qed.

(** ** Shape of the consolidated transcript *)

Section OutputFacts.

(** Both push sites add a normalized utterance, or nothing. *)
Lemma pushCurrent_normalized (st : Acc) :
  Forall normalized (result st) -> Forall normalized (pushCurrent st).
Proof.
  intros H. unfold pushCurrent. destruct (currentRole st) as [r|]; [|exact H].
  destruct (truthy r && truthy (trim (currentText st))) eqn:E; [|exact H].
  apply andb_prop in E as [Er Et].
  apply Forall_app; split; [exact H|]. constructor; [|constructor].
  repeat split; simpl; [now apply truthy_true|now apply truthy_true|apply trim_idem].
Qed.

Lemma step_normalized (st : Acc) (f : Fragment) :
  Forall normalized (result st) -> Forall normalized (result (step st f)).
Proof.
  intros H. unfold step.
  case_branches;
    simpl; auto using pushCurrent_normalized.
Qed.

Lemma ingest_normalized (t : list Fragment) :
  forall st, Forall normalized (result st) ->
  Forall normalized (result (ingest st t)).
Proof.
  induction t as [|f t IH]; intros st H; [exact H|].
  rewrite ingest_cons. apply IH, step_normalized, H.
Qed.

Lemma format_normalized (t : list Fragment) :
  Forall normalized (formatVapiTranscript t).
Proof.
  rewrite format_ingest. apply pushCurrent_normalized, ingest_normalized.
  constructor.
Qed.

Lemma lastRole_snoc (l : list Utterance) (u : Utterance) :
  lastRole (l ++ [u]) = Some (role u).
Proof. unfold lastRole. now rewrite rev_unit. Qed.

Lemma lastRole_cons (a b : Utterance) (l : list Utterance) :
  lastRole (a :: b :: l) = lastRole (b :: l).
Proof. unfold lastRole. simpl. destruct (rev l); reflexivity. Qed.

Lemma adjacentSameRole_snoc (l : list Utterance) (u : Utterance) :
  adjacentSameRole (l ++ [u])
  = adjacentSameRole l || negb (roleDiffers (role u) (lastRole l)).
Proof.
  induction l as [|a l IH]; [reflexivity|].
  destruct l as [|b l].
  - simpl. unfold lastRole. simpl.
    now rewrite negb_involutive, orb_false_r, String.eqb_sym.
  - change (adjacentSameRole ((a :: b :: l) ++ [u]))
      with (String.eqb (role a) (role b) || adjacentSameRole ((b :: l) ++ [u])).
    change (adjacentSameRole (a :: b :: l))
      with (String.eqb (role a) (role b) || adjacentSameRole (b :: l)).
    now rewrite IH, orb_assoc, lastRole_cons.
Qed.

Lemma adjacentDuplicate_sameRole (l : list Utterance) :
  adjacentSameRole l = false -> adjacentDuplicate l = false.
Proof.
  induction l as [|a l IH]; [reflexivity|].
  destruct l as [|b l]; [reflexivity|].
  change (String.eqb (role a) (role b) || adjacentSameRole (b :: l) = false ->
          (String.eqb (role a) (role b) && String.eqb (text a) (text b))
          || adjacentDuplicate (b :: l) = false).
  intros H. apply orb_false_elim in H as [-> H]. now rewrite IH.
Qed.

Lemma pushCurrent_alternating (st : Acc) :
  alternating st -> adjacentSameRole (pushCurrent st) = false.
Proof.
  intros [Ha Hc]. unfold pushCurrent.
  destruct (currentRole st) as [R|]; [|exact Ha].
  destruct Hc as (HR & HB & HL).
  destruct (truthy R && _); [|exact Ha].
  rewrite adjacentSameRole_snoc, Ha. simpl. now rewrite HL.
Qed.

Lemma step_alternating (st : Acc) (f : Fragment) :
  alternating st -> whitespaceOnly f = false -> alternating (step st f).
Proof.
  intros Halt Hw. destruct (accepted f) eqn:A; [|now rewrite (step_skip _ _ A)].
  assert (solid st) as Hs.
  { intros R E. destruct Halt as [_ H]. rewrite E in H. tauto. }
  pose proof (step_solid _ _ Hs Hw) as Hs'.
  pose proof (step_role st _ A) as Hrole.
  assert (role f <> "") as Hrf.
  { apply andb_prop in A as [A _]. now apply truthy_true. }
  specialize (Hs' _ Hrole). revert Hrole Hs'.
  rewrite (step_accepted _ _ A).
  destruct (roleDiffers (role f) (currentRole st)) eqn:D.
  - intros _ Hs'. split; cbn [result currentRole currentText].
    + now apply pushCurrent_alternating.
    + repeat split; [exact Hrf|exact Hs'|].
      destruct Halt as [Ha Hc]. unfold pushCurrent.
      destruct (currentRole st) as [R|] eqn:C.
      * destruct Hc as (HR & HB & HL).
        apply truthy_true in HR. rewrite HR, truthy_trim_blank, HB. simpl.
        rewrite lastRole_snoc. exact D.
      * now rewrite Hc.
  - apply roleDiffers_false in D. destruct Halt as [Ha Hc]. rewrite D in Hc.
    destruct Hc as (_ & HB & HL).
    case_branches;
      cbn [result currentRole currentText]; intros Hrole Hs';
      (split; [exact Ha|]); cbn [result currentRole currentText];
      rewrite Hrole; repeat split; assumption.
Qed.

Lemma ingest_alternating (t : list Fragment) :
  Forall (fun f => whitespaceOnly f = false) t ->
  forall st, alternating st -> alternating (ingest st t).
Proof.
  induction 1 as [|f t Hf _ IH]; intros st H; [exact H|].
  rewrite ingest_cons. apply IH, step_alternating; assumption.
Qed.

Lemma format_alternating (t : list Fragment) :
  Forall (fun f => whitespaceOnly f = false) t ->
  adjacentSameRole (formatVapiTranscript t) = false.
Proof.
  intros H. rewrite format_ingest.
  apply pushCurrent_alternating, ingest_alternating; [exact H|].
  split; reflexivity.
Qed.

(** A normalized list of alternating turns is consolidated to itself, after
    whatever the state it is ingested from has to push. *)
Lemma ingest_fixed (u : list Utterance) :
  Forall normalized u -> adjacentSameRole u = false ->
  forall st,
    match u with
    | [] => True
    | a :: _ => roleDiffers (role a) (currentRole st) = true
    end ->
    pushCurrent (ingest st u) = (pushCurrent st ++ u)%list.
Proof.
  induction 1 as [|a u Ha Hu IH]; intros Halt st Hst.
  - simpl. now rewrite app_nil_r.
  - destruct Ha as (Hr & Ht & Htrim).
    assert (accepted a = true) as A.
    { unfold accepted. apply andb_true_intro; split; now apply truthy_true. }
    rewrite ingest_cons, (step_accepted _ _ A), Hst.
    assert (adjacentSameRole u = false /\
            match u with
            | [] => True
            | b :: _ => roleDiffers (role b) (Some (role a)) = true
            end) as [Hu' Hb].
    { destruct u as [|b u]; [split; [reflexivity|exact I]|].
      change (String.eqb (role a) (role b) || adjacentSameRole (b :: u) = false)
        in Halt.
      apply orb_false_elim in Halt as [E H]. split; [exact H|].
      simpl. now rewrite String.eqb_sym, E. }
    rewrite (IH Hu' (mkAcc (pushCurrent st) (Some (role a)) (text a)) Hb).
    unfold pushCurrent at 1. cbn [currentRole currentText result].
    apply truthy_true in Hr, Ht. rewrite Htrim, Hr, Ht. simpl.
    rewrite <- app_assoc. destruct a; reflexivity.
Qed.

Lemma format_fixed (u : list Utterance) :
  Forall normalized u -> adjacentSameRole u = false ->
  formatVapiTranscript u = u.
Proof.
  intros Hn Ha. rewrite format_ingest, (ingest_fixed u Hn Ha init).
  - reflexivity.
  - destruct u; [exact I|reflexivity].
Qed.

End OutputFacts.

(** C10 (output normalization).  Every utterance of the consolidated
    transcript has a non-empty role and a non-empty text that is its own
    trim. *)
Theorem output_normalized (t : list Fragment) :
  Forall normalized (formatVapiTranscript t).
Proof. apply format_normalized. Qed.

Section AlternatingTurns.

Lemma filter_nonBlank_clean (t : list Fragment) :
  Forall (fun f => whitespaceOnly f = false) (filter nonBlank t).
Proof.
  apply Forall_forall. intros f Hf. apply filter_In in Hf as [_ Hf].
  unfold whitespaceOnly. unfold nonBlank in Hf. now rewrite Hf, andb_false_r.
Qed.

(** Streams without whitespace-only fragments satisfy [blanksRepeatSpeaker]. *)
Lemma clean_blanksRepeatSpeaker (t : list Fragment) :
  Forall (fun f => whitespaceOnly f = false) t ->
  forall last, blanksRepeatSpeaker last t = true.
Proof.
  induction 1 as [|f t Hf _ IH]; intros last; [reflexivity|].
  cbn [blanksRepeatSpeaker]. destruct (accepted f) eqn:A; [|apply IH].
  apply andb_prop in A as [_ A]. unfold whitespaceOnly in Hf.
  rewrite A in Hf. simpl in Hf. apply negb_false_iff in Hf.
  unfold nonBlank. rewrite Hf. apply IH.
Qed.

Lemma format_drop_blanks (t : list Fragment) :
  blanksRepeatSpeaker None t = true ->
  formatVapiTranscript t = formatVapiTranscript (filter nonBlank t).
Proof.
  intros H. rewrite !format_ingest. f_equal. symmetry.
  apply ingest_drop_blanks; [intros R; discriminate|exact H].
Qed.

Lemma format_turns_alternate (t : list Fragment) :
  blanksRepeatSpeaker None t = true ->
  adjacentSameRole (formatVapiTranscript t) = false.
Proof.
  intros H. rewrite (format_drop_blanks _ H).
  apply format_alternating, filter_nonBlank_clean.
Qed.

(** A normalized utterance is not a whitespace-only fragment. *)
Lemma normalized_clean (u : list Utterance) :
  Forall normalized u -> Forall (fun f => whitespaceOnly f = false) u.
Proof.
  apply Forall_impl. intros a (_ & Ht & Htrim). unfold whitespaceOnly.
  apply truthy_true in Ht. now rewrite Htrim, Ht.
Qed.

Lemma format_twice (t : list Fragment) :
  blanksRepeatSpeaker None t = true ->
  formatVapiTranscript (formatVapiTranscript t) = formatVapiTranscript t.
Proof.
  intros H. apply format_fixed; [apply format_normalized|].
  now apply format_turns_alternate.
Qed.

(** Whatever the stream, a third consolidation changes nothing any more. *)
Lemma format_stable (t : list Fragment) :
  formatVapiTranscript (formatVapiTranscript (formatVapiTranscript t))
  = formatVapiTranscript (formatVapiTranscript t).
Proof.
  apply format_fixed; [apply format_normalized|].
  apply format_alternating, normalized_clean, format_normalized.
Qed.

End AlternatingTurns.

(** C5 as stated fails: a whitespace-only fragment of the other speaker
    separates two equal turns of one speaker and is itself never pushed. *)
Lemma adjacency_counterexample :
  adjacentDuplicate
    (formatVapiTranscript
       [mkItem Interviewer "Hello"; mkItem Candidate " "; mkItem Interviewer "Hello"])
  = true.
Proof. reflexivity. Qed.

(** C5, as the code has it.  When every whitespace-only fragment repeats the
    role of the nearest earlier non-blank fragment (so in every stream without
    whitespace-only fragments), neighbours in the consolidated transcript have
    different roles; hence no two neighbours have the same role and the same
    text. *)
Theorem adjacency_invariant (t : list Fragment) :
  blanksRepeatSpeaker None t = true ->
  adjacentSameRole (formatVapiTranscript t) = false
  /\ adjacentDuplicate (formatVapiTranscript t) = false.
Proof.
  intros H. pose proof (format_turns_alternate t H) as Ha.
  split; [exact Ha|now apply adjacentDuplicate_sameRole].
Qed.

Lemma adjacency_invariant_witness :
  adjacentSameRole
    (formatVapiTranscript
       [mkItem Interviewer "Hello"; mkItem Interviewer " "; mkItem Candidate "Hi";
        mkItem Interviewer "Hello"]) = false
  /\ adjacentDuplicate
       (formatVapiTranscript
          [mkItem Interviewer "Hello"; mkItem Interviewer " "; mkItem Candidate "Hi";
           mkItem Interviewer "Hello"]) = false.
Proof.
  apply (adjacency_invariant
           [mkItem Interviewer "Hello"; mkItem Interviewer " "; mkItem Candidate "Hi";
            mkItem Interviewer "Hello"]).
  reflexivity.
Defined.

(** C6 as stated fails: the second consolidation merges the two equal turns
    that the first one left side by side. *)
Lemma idempotence_counterexample :
  formatVapiTranscript
    (formatVapiTranscript
       [mkItem Interviewer "Hello"; mkItem Candidate " "; mkItem Interviewer "Hello"])
  <> formatVapiTranscript
       [mkItem Interviewer "Hello"; mkItem Candidate " "; mkItem Interviewer "Hello"].
Proof. vm_compute. discriminate. Qed.

(** C6, as the code has it.  When every whitespace-only fragment repeats the
    role of the nearest earlier non-blank fragment (so in every stream without
    whitespace-only fragments), consolidating the consolidated transcript
    gives it back unchanged. *)
Theorem consolidation_idempotent (t : list Fragment) :
  blanksRepeatSpeaker None t = true ->
  formatVapiTranscript (formatVapiTranscript t) = formatVapiTranscript t.
Proof. apply format_twice. Qed.

Lemma consolidation_idempotent_witness :
  formatVapiTranscript
    (formatVapiTranscript
       [mkItem Interviewer "Hello"; mkItem Interviewer "Hello there";
        mkItem Candidate "Hi"; mkItem Candidate " "; mkItem Candidate "Ready"])
  = formatVapiTranscript
      [mkItem Interviewer "Hello"; mkItem Interviewer "Hello there";
       mkItem Candidate "Hi"; mkItem Candidate " "; mkItem Candidate "Ready"].
Proof.
  apply (consolidation_idempotent
           [mkItem Interviewer "Hello"; mkItem Interviewer "Hello there";
            mkItem Candidate "Hi"; mkItem Candidate " "; mkItem Candidate "Ready"]).
  reflexivity.
Defined.

(** ** The evaluation document *)

Section Rendering.

Lemma append_empty_r (s : string) : s ++ "" = s.
Proof. induction s as [|c s IH]; simpl; [reflexivity|now rewrite IH]. Qed.

Lemma append_assoc (a b c : string) : (a ++ b) ++ c = a ++ (b ++ c).
Proof. induction a as [|x a IH]; simpl; [reflexivity|now rewrite IH]. Qed.

Lemma render_from (messages : list Utterance) (acc : string) :
  fold_left (fun acc message => acc ++ renderLine message) messages acc
  = acc ++ documentLines messages.
Proof.
  revert acc; induction messages as [|m l IH]; intros acc; simpl.
  - now rewrite append_empty_r.
  - now rewrite IH, append_assoc.
Qed.

(** The [forEach] of [formatTranscriptForLLM] writes [document]. *)
Lemma render_document (messages : list Utterance) :
  render messages = document messages.
Proof. apply render_from. Qed.

Lemma endCall_dispatched (s : Session) :
  vapi s = true ->
  dispatched (endCall s)
  = (dispatched s
     ++ [document (formatVapiTranscript (formatVapiTranscript (transcript s)))])%list.
Proof.
  intros H. unfold endCall. rewrite H. simpl.
  unfold formatTranscriptForLLM. now rewrite render_document.
Qed.

End Rendering.

(** C9 as stated fails: [endCall] consolidates the consolidated transcript
    once more inside [formatTranscriptForLLM], so the document can have fewer
    lines than the consolidated transcript has utterances. *)
Lemma evaluation_document_counterexample :
  let s := mkSession true true false
             [mkItem Interviewer "Hello"; mkItem Candidate " ";
              mkItem Interviewer "Hello"] [] in
  formatVapiTranscript (transcript s)
  = [mkItem Interviewer "Hello"; mkItem Interviewer "Hello"]
  /\ dispatched (endCall s)
     = [header ++ "AI INTERVIEWER: Hello" ++ nl ++ nl]
  /\ dispatched (endCall s) <> [document (formatVapiTranscript (transcript s))].
Proof. vm_compute. repeat split; discriminate. Qed.

(** C9, as the code has it.  With the Vapi instance in place, [endCall] hands
    over exactly one document: the header followed by one line
    ["<label>: <text>"] and a blank line per utterance, in order, of the
    consolidated transcript consolidated once more; the label is
    [AI INTERVIEWER] for the role ["assistant"] and [CANDIDATE] otherwise.
    These are the utterances of the consolidated transcript itself when every
    whitespace-only fragment repeats the role of the nearest earlier non-blank
    fragment, and for the empty transcript the document is the header alone. *)
Theorem evaluation_document (s : Session) :
  vapi s = true ->
  dispatched (endCall s)
  = (dispatched s
     ++ [document (formatVapiTranscript (formatVapiTranscript (transcript s)))])%list
  /\ (blanksRepeatSpeaker None (transcript s) = true ->
      dispatched (endCall s)
      = (dispatched s ++ [document (formatVapiTranscript (transcript s))])%list)
  /\ (transcript s = [] ->
      dispatched (endCall s) = (dispatched s ++ [header])%list)
  /\ (forall r x,
      renderLine (mkItem r x)
      = (if String.eqb r Interviewer then "AI INTERVIEWER" else "CANDIDATE")
        ++ ": " ++ x ++ nl ++ nl).
Proof.
  intros H. pose proof (endCall_dispatched s H) as E.
  repeat split.
  - exact E.
  - intros Hb. now rewrite E, (format_twice _ Hb).
  - intros Ht. rewrite E, Ht. reflexivity.
Qed.

Lemma evaluation_document_witness :
  let s := mkSession true true false [] [] in
  dispatched (endCall s)
  = [document (formatVapiTranscript (formatVapiTranscript (transcript s)))]
  /\ dispatched (endCall s) = [document (formatVapiTranscript (transcript s))]
  /\ dispatched (endCall s) = [header]
  /\ (forall r x,
      renderLine (mkItem r x)
      = (if String.eqb r Interviewer then "AI INTERVIEWER" else "CANDIDATE")
        ++ ": " ++ x ++ nl ++ nl).
Proof.
  intros s.
  destruct (evaluation_document s eq_refl) as (H1 & H2 & H3 & H4).
  split; [exact H1|].
  split; [exact (H2 eq_refl)|].
  split; [exact (H3 eq_refl)|exact H4].
Defined.

(** ** Session events *)

Section SessionFacts.

Lemma handle_vapi (s : Session) (e : Event) :
  vapi s = true -> vapi (handle s e) = true.
Proof.
  intros H. destruct e; simpl; try exact H; try reflexivity.
  unfold endCall. rewrite H. reflexivity.
Qed.

(** Each listener other than [endCall] leaves the log of dispatches alone, and
    [endCall] adds one entry to it. *)
Lemma handle_dispatched (s : Session) (e : Event) :
  vapi s = true ->
  length (dispatched (handle s e))
  = length (dispatched s) + (if isEndCall e then 1 else 0).
Proof.
  intros H. destruct e; simpl; try lia.
  unfold endCall. rewrite H. simpl. rewrite List.length_app. simpl. lia.
Qed.

(** The number of dispatches of a run is the number of its [endCall]s. *)
Lemma runSession_dispatched (events : list Event) :
  forall s, vapi s = true ->
  length (dispatched (runSession s events))
  = length (dispatched s) + length (filter isEndCall events).
Proof.
  induction events as [|e events IH]; intros s H; simpl; [lia|].
  change (fold_left handle events (handle s e)) with (runSession (handle s e) events).
  rewrite (IH _ (handle_vapi _ e H)), (handle_dispatched _ e H).
  destruct (isEndCall e); simpl; lia.
Qed.

End SessionFacts.

Section ClicksAndSignals.

Lemma uiHandle_vapi (s : Session) (e : Event) :
  vapi s = true -> vapi (uiHandle s e) = true.
Proof.
  intros H. destruct e; try exact (handle_vapi s _ H).
  simpl. destruct (isConnected s); [exact (handle_vapi s EndCall H)|exact H].
Qed.

Lemma runUI_cons (s : Session) (e : Event) (events : list Event) :
  runUI s (e :: events) = runUI (uiHandle s e) events.
Proof. reflexivity. Qed.

Lemma runUI_app (s : Session) (l1 l2 : list Event) :
  runUI s (l1 ++ l2) = runUI (runUI s l1) l2.
Proof. apply fold_left_app. Qed.

Lemma runUI_vapi (events : list Event) :
  forall s, vapi s = true -> vapi (runUI s events) = true.
Proof.
  induction events as [|e events IH]; intros s H; [exact H|].
  rewrite runUI_cons. apply IH, uiHandle_vapi, H.
Qed.

(** Every event but a click on End Interview leaves the dispatches alone. *)
Lemma uiHandle_quiet (s : Session) (e : Event) :
  isEndCall e = false -> dispatched (uiHandle s e) = dispatched s.
Proof. destruct e; simpl; try reflexivity. discriminate. Qed.

Lemma runUI_quiet (events : list Event) :
  forall s, existsb isEndCall events = false ->
  dispatched (runUI s events) = dispatched s.
Proof.
  induction events as [|e events IH]; intros s H; [reflexivity|].
  cbn [existsb] in H. apply orb_false_elim in H as [He H].
  now rewrite runUI_cons, (IH _ H), uiHandle_quiet.
Qed.

(** What an event makes of [isConnected]. *)
Lemma uiHandle_connected (s : Session) (e : Event) :
  isConnected (uiHandle s e)
  = match e with
    | CallStart => true
    | CallEnd => false
    | _ => isConnected s
    end.
Proof.
  destruct e; simpl; try reflexivity.
  destruct (isConnected s) eqn:C; [|exact C].
  unfold endCall. destruct (vapi s); exact C.
Qed.

(** While the call is not connected, and as long as no ["call-start"]
    arrives, nothing is dispatched. *)
Lemma runUI_disconnected (events : list Event) :
  forall s, isConnected s = false -> existsb isCallStart events = false ->
  dispatched (runUI s events) = dispatched s.
Proof.
  induction events as [|e events IH]; intros s Hc H; [reflexivity|].
  cbn [existsb] in H. apply orb_false_elim in H as [He H].
  rewrite runUI_cons, IH; [| |exact H].
  - destruct e; simpl; try reflexivity. now rewrite Hc.
  - rewrite uiHandle_connected. destruct e; try exact Hc; try reflexivity.
    discriminate.
Qed.

Lemma runUI_dispatched (events : list Event) :
  forall s, vapi s = true ->
  length (dispatched (runUI s events))
  = length (dispatched s) + effectiveClicks (isConnected s) events.
Proof.
  induction events as [|e events IH]; intros s H; [simpl; lia|].
  rewrite runUI_cons, (IH _ (uiHandle_vapi _ e H)), uiHandle_connected.
  destruct e; simpl; try lia.
  destruct (isConnected s); [|lia].
  unfold endCall. rewrite H. simpl. rewrite List.length_app. simpl. lia.
Qed.

End ClicksAndSignals.

(** C7 as stated fails: the page has no one-shot flag, so two clicks on End
    Interview before the ["call-end"] signal arrives dispatch the evaluation
    twice, although a stop command and the signal both occur. *)
Lemma one_shot_counterexample :
  let events := [Mount; StartCall; CallStart; TranscriptMessage Interviewer "Hello";
                 EndCall; EndCall; CallEnd] in
  existsb isEndCall events = true
  /\ existsb isCallEnd events = true
  /\ length (dispatched (runUI mounted events)) = 2
  /\ length (dispatched (runSession mounted events)) = 2.
Proof. repeat split. Qed.

(** C7, as the code has it.  With the Vapi instance in place, the evaluation
    is dispatched by the clicks on End Interview that find the button on the
    page, once per click, and by nothing else: a run adds as many dispatches
    as it has such clicks.  In particular a run with a single click, made
    while the call is connected, adds exactly one dispatch whatever signals
    come before and after it; a run without a click adds none, whatever
    signals it has; and a run that starts disconnected and has no
    ["call-start"] adds none. *)
Theorem termination_dispatch (s : Session) (events : list Event) :
  vapi s = true ->
  length (dispatched (runUI s events))
  = length (dispatched s) + effectiveClicks (isConnected s) events
  /\ (forall pre post,
        events = (pre ++ EndCall :: post)%list ->
        isConnected (runUI s pre) = true ->
        existsb isEndCall pre = false -> existsb isEndCall post = false ->
        length (dispatched (runUI s events)) = length (dispatched s) + 1)
  /\ (existsb isEndCall events = false ->
      dispatched (runUI s events) = dispatched s)
  /\ (isConnected s = false -> existsb isCallStart events = false ->
      dispatched (runUI s events) = dispatched s).
Proof.
  intros H. split; [now apply runUI_dispatched|]. split; [|split].
  - intros pre post -> Hc Hpre Hpost.
    rewrite runUI_app, runUI_cons, (runUI_quiet post _ Hpost).
    simpl. rewrite Hc. unfold endCall.
    rewrite (runUI_vapi pre s H). simpl.
    rewrite List.length_app, (runUI_quiet pre s Hpre). reflexivity.
  - apply runUI_quiet.
  - apply runUI_disconnected.
Qed.

Lemma termination_dispatch_witness :
  length (dispatched
            (runUI (handle mounted Mount)
               [StartCall; CallStart; TranscriptMessage Interviewer "Hello";
                EndCall; CallEnd])) = 1
  /\ dispatched
       (runUI (handle mounted Mount)
          [StartCall; CallStart; TranscriptMessage Interviewer "Hello"; CallEnd])
     = []
  /\ dispatched
       (runUI (handle mounted Mount)
          [StartCall; SpeechStart; CallEnd; EndCall]) = [].
Proof.
  split; [|split].
  - destruct (termination_dispatch (handle mounted Mount)
                [StartCall; CallStart; TranscriptMessage Interviewer "Hello";
                 EndCall; CallEnd] eq_refl) as (_ & H & _).
    apply (H [StartCall; CallStart; TranscriptMessage Interviewer "Hello"]
             [CallEnd]); reflexivity.
  - destruct (termination_dispatch (handle mounted Mount)
                [StartCall; CallStart; TranscriptMessage Interviewer "Hello";
                 CallEnd] eq_refl) as (_ & _ & H & _).
    apply H; reflexivity.
  - destruct (termination_dispatch (handle mounted Mount)
                [StartCall; SpeechStart; CallEnd; EndCall] eq_refl)
      as (_ & _ & _ & H).
    apply H; reflexivity.
Defined.

(** ** The face detection interval *)

(** C8 as stated fails: the interval callback has no in-flight check, so a
    second tick issues a second query while the first is still pending. *)
Lemma detection_overlap_counterexample :
  let m := runMonitor (mkMonitor false 0 0 0) [ModelLoaded; Tick true] in
  inFlight m = 1
  /\ issued (monitorStep m (Tick true)) = S (issued m)
  /\ inFlight (monitorStep m (Tick true)) = 2.
Proof. repeat split. Qed.

(** C8, as the code has it.  Once the model is loaded, a tick at which the
    video is ready issues exactly one new detection query whatever the number
    of queries still in flight, and a tick at which it is not ready issues
    none. *)
Theorem detection_tick (m : Monitor) :
  detector m = true ->
  (issued (monitorStep m (Tick true)) = S (issued m)
   /\ inFlight (monitorStep m (Tick true)) = S (inFlight m))
  /\ monitorStep m (Tick false) = m.
Proof. intros H. simpl. rewrite H. repeat split. Qed.

Lemma detection_tick_witness :
  (issued (monitorStep (mkMonitor true 1 1 0) (Tick true)) = 2
   /\ inFlight (monitorStep (mkMonitor true 1 1 0) (Tick true)) = 2)
  /\ monitorStep (mkMonitor true 1 1 0) (Tick false) = mkMonitor true 1 1 0.
Proof. apply (detection_tick (mkMonitor true 1 1 0)). reflexivity. Defined.

(** * Further properties of the consolidation loop *)

Section Redelivery.

Lemma includes_refl (s : string) : includes s s = true.
Proof. apply includes_spec. exists "", "". simpl. now rewrite append_empty_r. Qed.

Lemma includes_appended (t x : string) : includes (t ++ " " ++ x) x = true.
Proof.
  apply includes_spec. exists (t ++ " "), "".
  now rewrite append_empty_r, append_assoc.
Qed.

(** A fragment of the accumulator's role that the accumulator text already
    contains, and that is not longer than it, changes nothing. *)
Lemma step_settled (st : Acc) (f : Fragment) :
  currentRole st = Some (role f) ->
  includes (currentText st) (text f) = true ->
  String.length (text f) <= String.length (currentText st) ->
  step st f = st.
Proof.
  intros Hrole Hinc Hlen. destruct (accepted f) eqn:A; [|now apply step_skip].
  rewrite (step_accepted _ _ A), Hrole, roleDiffers_same, Hinc.
  apply Nat.ltb_ge in Hlen. rewrite Hlen. reflexivity.
Qed.

(** Handing the loop the same fragment twice in a row is handing it once. *)
Lemma step_twice (st : Acc) (f : Fragment) :
  step (step st f) f = step st f.
Proof.
  destruct (accepted f) eqn:A; [|now rewrite !(step_skip _ _ A)].
  pose proof (step_role st f A) as Hrole. revert Hrole.
  rewrite (step_accepted st f A).
  destruct (roleDiffers (role f) (currentRole st)) eqn:D.
  - intros Hrole. apply step_settled; simpl;
      [reflexivity|apply includes_refl|lia].
  - destruct (_ && startsWith _ _) eqn:G.
    + intros Hrole. apply step_settled; simpl;
        [exact Hrole|apply includes_refl|lia].
    + destruct (_ && truthy _) eqn:P.
      * intros Hrole. apply step_settled; simpl;
          [exact Hrole|apply includes_appended|].
        rewrite string_length_app. simpl. lia.
      * intros _. rewrite (step_accepted st f A), D, G, P. reflexivity.
Qed.

Lemma ingest_app (st : Acc) (t1 t2 : list Fragment) :
  ingest st (t1 ++ t2) = ingest (ingest st t1) t2.
Proof. apply fold_left_app. Qed.

End Redelivery.

(** X1 (duplicate delivery).  A fragment delivered twice in a row, anywhere in
    the stream, consolidates to what the stream with the single delivery
    consolidates to; the loop state after the second copy is the state after
    the first. *)
Theorem duplicate_delivery (t1 t2 : list Fragment) (f : Fragment) :
  formatVapiTranscript (t1 ++ f :: f :: t2) = formatVapiTranscript (t1 ++ f :: t2)
  /\ forall st, step (step st f) f = step st f.
Proof.
  split; [|intros st; apply step_twice].
  rewrite !format_ingest, !ingest_app, !ingest_cons, step_twice. reflexivity.
Qed.

Section ClosedTurns.

Lemma pushCurrent_extends (st : Acc) :
  exists l, pushCurrent st = (result st ++ l)%list /\ length l <= 1.
Proof.
  unfold pushCurrent. destruct (currentRole st) as [r|].
  - destruct (truthy r && _).
    + eexists; split; [reflexivity|simpl; lia].
    + exists []; split; [now rewrite app_nil_r|simpl; lia].
  - exists []; split; [now rewrite app_nil_r|simpl; lia].
Qed.

Lemma step_extends (st : Acc) (f : Fragment) :
  exists l, result (step st f) = (result st ++ l)%list.
Proof.
  unfold step. case_branches; simpl;
    try (exists []; now rewrite app_nil_r).
  destruct (pushCurrent_extends st) as [l [E _]]. now exists l.
Qed.

Lemma ingest_extends (t : list Fragment) :
  forall st, exists l, result (ingest st t) = (result st ++ l)%list.
Proof.
  induction t as [|f t IH]; intros st.
  - exists []. simpl. now rewrite app_nil_r.
  - rewrite ingest_cons. destruct (IH (step st f)) as [l2 E2].
    destruct (step_extends st f) as [l1 E1].
    exists (l1 ++ l2)%list. now rewrite E2, E1, <- app_assoc.
Qed.

End ClosedTurns.

(** X2 (closed turns are final).  The turns that are closed after a prefix of
    the stream are never revised: the transcript of the prefix is these turns
    and at most one more, and the transcript of any extension of the stream
    starts with them. *)
Theorem closed_turns_final (t1 t2 : list Fragment) :
  (exists o, formatVapiTranscript t1 = (result (ingest init t1) ++ o)%list
             /\ length o <= 1)
  /\ (exists l, formatVapiTranscript (t1 ++ t2)
                = (result (ingest init t1) ++ l)%list).
Proof.
  split.
  - rewrite format_ingest. apply pushCurrent_extends.
  - rewrite format_ingest, ingest_app.
    destruct (ingest_extends t2 (ingest init t1)) as [l1 E1].
    destruct (pushCurrent_extends (ingest (ingest init t1) t2)) as [l2 [E2 _]].
    exists (l1 ++ l2)%list. now rewrite E2, E1, <- app_assoc.
Qed.

Section Emptiness.

Lemma blank_includes (t x : string) :
  blank t = true -> includes t x = true -> blank x = true.
Proof.
  intros Bt H. apply includes_spec in H as [a [b ->]].
  rewrite !blank_app in Bt. apply andb_prop in Bt as [_ Bt].
  now apply andb_prop in Bt as [Bx _].
Qed.

Lemma startsWith_nonblank (x t : string) :
  startsWith x (trim t) = true -> blank t = false -> blank x = false.
Proof.
  intros H Bt. destruct (blank x) eqn:Bx; [|reflexivity].
  rewrite blank_not_startsWith in H; [discriminate|exact Bx|].
  intros E. apply trim_blank in E. congruence.
Qed.

Lemma carriesText_accepted (f : Fragment) :
  carriesText f = true -> accepted f = true.
Proof.
  unfold carriesText, accepted, nonBlank. intros H.
  apply andb_prop in H as [-> H]. simpl.
  destruct (text f); [discriminate H|reflexivity].
Qed.

(** What [pushCurrent] returns for an open accumulator with a truthy role. *)
Lemma pushCurrent_some (res : list Utterance) (r t : string) :
  truthy r = true ->
  pushCurrent (mkAcc res (Some r) t)
  = if blank t then res else (res ++ [mkItem r (trim t)])%list.
Proof.
  intros Hr. unfold pushCurrent. simpl.
  rewrite Hr, truthy_trim_blank. now destruct (blank t).
Qed.

Lemma snoc_not_nil (A : Type) (l : list A) (a : A) : (l ++ [a])%list <> [].
Proof. destruct l; discriminate. Qed.

(** The transcript so far is empty after a step exactly when it was empty
    before and the fragment carries no text. *)
Lemma step_quiet (st : Acc) (f : Fragment) :
  pushCurrent (step st f) = [] <-> pushCurrent st = [] /\ carriesText f = false.
Proof.
  destruct (accepted f) eqn:A.
  2:{ rewrite (step_skip _ _ A). split; [|tauto]. intros H; split; [exact H|].
      destruct (carriesText f) eqn:C; [|reflexivity].
      apply carriesText_accepted in C. congruence. }
  assert (truthy (role f) = true) as Hrf by now apply andb_prop in A.
  assert (carriesText f = negb (blank (text f))) as ->.
  { unfold carriesText, nonBlank. now rewrite Hrf, truthy_trim_blank. }
  rewrite (step_accepted _ _ A).
  destruct (roleDiffers (role f) (currentRole st)) eqn:D.
  - rewrite (pushCurrent_some _ _ _ Hrf).
    destruct (blank (text f)); simpl; [tauto|].
    split; [intros H; now apply snoc_not_nil in H|intros [_ H]; discriminate].
  - apply roleDiffers_false in D. destruct st as [res cur T]. simpl in *. subst cur.
    rewrite !truthy_trim_blank, (pushCurrent_some res _ T Hrf).
    destruct (Nat.ltb _ _ && startsWith _ _) eqn:G.
    + rewrite (pushCurrent_some _ _ _ Hrf).
      apply andb_prop in G as [_ G].
      destruct (blank (text f)) eqn:Bx; simpl.
      * destruct (blank T) eqn:Bt; [tauto|].
        pose proof (startsWith_nonblank _ _ G Bt). congruence.
      * split; [intros H; now apply snoc_not_nil in H|intros [_ H]; discriminate].
    + destruct (negb (includes T (text f)) && negb (blank (text f))) eqn:P.
      * apply andb_prop in P as [_ P]. apply negb_true_iff in P.
        rewrite (pushCurrent_some _ _ _ Hrf), blank_app. cbn [append blank].
        rewrite P, !andb_false_r. simpl.
        split; [intros H; now apply snoc_not_nil in H|intros [_ H]; discriminate].
      * rewrite (pushCurrent_some res _ T Hrf).
        destruct (blank T) eqn:Bt.
        -- destruct (blank (text f)) eqn:Bx; simpl; [tauto|].
           rewrite andb_true_r in P. apply negb_false_iff in P.
           pose proof (blank_includes _ _ Bt P). congruence.
        -- split; [intros H; now apply snoc_not_nil in H|].
           intros [H _]; now apply snoc_not_nil in H.
Qed.

Lemma ingest_quiet (t : list Fragment) :
  forall st,
  pushCurrent (ingest st t) = []
  <-> pushCurrent st = [] /\ existsb carriesText t = false.
Proof.
  induction t as [|f t IH]; intros st; [simpl; tauto|].
  rewrite ingest_cons, IH, step_quiet.
  cbn [existsb]. rewrite orb_false_iff. tauto.
Qed.

Lemma format_empty (t : list Fragment) :
  formatVapiTranscript t = [] <-> existsb carriesText t = false.
Proof.
  rewrite format_ingest, (ingest_quiet t init).
  split; [tauto|intros H; split; [reflexivity|exact H]].
Qed.

End Emptiness.

(** X3 (nothing is lost, nothing is made up).  The consolidated transcript is
    empty exactly when no fragment of the stream has both a role and a text
    that is not blank. *)
Theorem transcript_empty_iff (t : list Fragment) :
  formatVapiTranscript t = [] <-> existsb carriesText t = false.
Proof. apply format_empty. Qed.

Section Size.

Lemma pushCurrent_length (res : list Utterance) (cur : option string) (t : string) :
  length res <= length (pushCurrent (mkAcc res cur t)) <= S (length res).
Proof.
  unfold pushCurrent. simpl. destruct cur as [r|]; [|lia].
  destruct (truthy r && _); rewrite ?List.length_app; simpl; lia.
Qed.

Lemma pushCurrent_blank (res : list Utterance) (cur : option string) (t : string) :
  blank t = true -> pushCurrent (mkAcc res cur t) = res.
Proof.
  intros B. unfold pushCurrent. simpl. destruct cur as [r|]; [|reflexivity].
  now rewrite truthy_trim_blank, B, andb_false_r.
Qed.

(** A step adds at most one turn to the transcript so far, and none unless
    the fragment carries text. *)
Lemma step_length (st : Acc) (f : Fragment) :
  length (pushCurrent (step st f))
  <= length (pushCurrent st) + (if carriesText f then 1 else 0).
Proof.
  destruct (accepted f) eqn:A; [|rewrite (step_skip _ _ A); lia].
  assert (truthy (role f) = true) as Hrf by now apply andb_prop in A.
  assert (carriesText f = negb (blank (text f))) as ->.
  { unfold carriesText, nonBlank. now rewrite Hrf, truthy_trim_blank. }
  rewrite (step_accepted _ _ A).
  destruct (roleDiffers (role f) (currentRole st)) eqn:D.
  - rewrite (pushCurrent_some _ _ _ Hrf).
    destruct (blank (text f)); rewrite ?List.length_app; simpl; lia.
  - destruct st as [res cur T]. simpl in *.
    pose proof (pushCurrent_length res cur T) as [Hlo _].
    destruct (blank (text f)) eqn:Bx; simpl.
    + rewrite truthy_trim_blank, Bx, andb_false_r.
      destruct (_ && startsWith _ _); [|lia].
      rewrite (pushCurrent_blank _ _ _ Bx). lia.
    + case_branches;
        match goal with
        | |- context [pushCurrent (mkAcc res cur ?y)] =>
            pose proof (pushCurrent_length res cur y)
        end; lia.
Qed.

Lemma ingest_length (t : list Fragment) :
  forall st,
  length (pushCurrent (ingest st t))
  <= length (pushCurrent st) + length (filter carriesText t).
Proof.
  induction t as [|f t IH]; intros st; [simpl; lia|].
  rewrite ingest_cons. specialize (IH (step st f)).
  pose proof (step_length st f). cbn [filter].
  destruct (carriesText f); simpl; lia.
Qed.

Lemma pushCurrent_roles (S : string -> Prop) (st : Acc) :
  rolesFrom S st -> Forall (fun u => S (role u)) (pushCurrent st).
Proof.
  intros [Hres Hcur]. unfold pushCurrent.
  destruct (currentRole st) as [r|]; [|exact Hres].
  destruct (truthy r && _); [|exact Hres].
  apply Forall_app; split; [exact Hres|]. constructor; [|constructor].
  now apply Hcur.
Qed.

Lemma step_roles (S : string -> Prop) (st : Acc) (f : Fragment) :
  (accepted f = true -> S (role f)) -> rolesFrom S st -> rolesFrom S (step st f).
Proof.
  intros Hf Hst. destruct (accepted f) eqn:A; [|now rewrite (step_skip _ _ A)].
  rewrite (step_accepted _ _ A). pose proof Hst as [Hres Hcur].
  case_branches; try exact Hst; split; simpl; auto using pushCurrent_roles.
  intros R E; injection E as <-; auto.
Qed.

Lemma ingest_roles (S : string -> Prop) (t : list Fragment) :
  (forall f, In f t -> accepted f = true -> S (role f)) ->
  forall st, rolesFrom S st -> rolesFrom S (ingest st t).
Proof.
  induction t as [|f t IH]; intros Ht st Hst; [exact Hst|].
  rewrite ingest_cons. apply IH.
  - intros g Hg. apply Ht. now right.
  - apply step_roles; [|exact Hst]. apply Ht. now left.
Qed.

End Size.

(** X4 (size and speakers).  The consolidated transcript has at most as many
    turns as the stream has fragments with a role and a text that is not
    blank, and the role of every turn is the role of a fragment of the stream
    that passed the guard. *)
Theorem transcript_bounded (t : list Fragment) :
  length (formatVapiTranscript t) <= length (filter carriesText t)
  /\ Forall (fun u => exists f, In f t /\ accepted f = true /\ role f = role u)
            (formatVapiTranscript t).
Proof.
  rewrite format_ingest. split.
  - exact (ingest_length t init).
  - apply (pushCurrent_roles
             (fun r => exists f, In f t /\ accepted f = true /\ role f = r)).
    apply ingest_roles.
    + intros f Hin A. now exists f.
    + split; [constructor|intros R; discriminate].
Qed.

Section PartialHypotheses.

Lemma last_cons (A : Type) (ys : list A) :
  forall y x, last (y :: ys) x = last ys y.
Proof.
  induction ys as [|a ys IH]; intros y x; [reflexivity|].
  change (last (y :: a :: ys) x) with (last (a :: ys) x).
  now rewrite (IH a x), (IH a y).
Qed.

(** A run of growing texts of one speaker leaves the last of them in the
    accumulator and closes nothing. *)
Lemma ingest_growing (R : string) (xs : list string) :
  R <> "" ->
  forall res x, growing x xs = true ->
  ingest (mkAcc res (Some R) x) (map (mkItem R) xs)
  = mkAcc res (Some R) (last xs x).
Proof.
  intros HR. induction xs as [|y ys IH]; intros res x H; [reflexivity|].
  cbn [growing] in H. apply andb_prop in H as [H Hys].
  cbn [map]. rewrite ingest_cons.
  assert (step (mkAcc res (Some R) x) (mkItem R y) = mkAcc res (Some R) y) as ->.
  { assert (accepted (mkItem R y) = true) as A.
    { unfold accepted. simpl. apply andb_true_intro; split.
      - now apply truthy_true.
      - apply andb_prop in H as [H _]. apply Nat.ltb_lt in H.
        destruct y; [simpl in H; lia|reflexivity]. }
    rewrite (step_accepted _ _ A). simpl.
    now rewrite String.eqb_refl, H. }
  rewrite (IH _ _ Hys). f_equal. symmetry. apply last_cons.
Qed.

End PartialHypotheses.

(** X5 (partial hypotheses collapse).  A stream of one speaker in which every
    text is strictly longer than the one before and starts with its trim
    consolidates to the single turn that holds the trim of the last text (to
    nothing if that text is blank). *)
Theorem growing_stream_collapses (R x : string) (xs : list string) :
  R <> "" -> x <> "" -> growing x xs = true ->
  formatVapiTranscript (map (mkItem R) (x :: xs))
  = if blank (last xs x) then [] else [mkItem R (trim (last xs x))].
Proof.
  intros HR Hx H. rewrite format_ingest. cbn [map]. rewrite ingest_cons.
  assert (step init (mkItem R x) = mkAcc [] (Some R) x) as ->.
  { assert (accepted (mkItem R x) = true) as A.
    { unfold accepted. simpl. apply andb_true_intro; split; now apply truthy_true. }
    now rewrite (step_accepted _ _ A). }
  rewrite (ingest_growing R xs HR _ _ H).
  apply truthy_true in HR. now rewrite (pushCurrent_some _ _ _ HR).
Qed.

Lemma growing_stream_collapses_witness :
  formatVapiTranscript
    (map (mkItem Candidate) ["I"; "I have"; "I have five years "])
  = [mkItem Candidate "I have five years"].
Proof.
  apply (growing_stream_collapses Candidate "I" ["I have"; "I have five years "]).
  - discriminate.
  - discriminate.
  - reflexivity.
Defined.

Section DocumentShape.

Lemma renderLine_length (m : Utterance) : 0 < String.length (renderLine m).
Proof.
  unfold renderLine, speaker.
  destruct (String.eqb _ _); rewrite !string_length_app; simpl; lia.
Qed.

Lemma documentLines_empty (l : list Utterance) :
  documentLines l = "" <-> l = [].
Proof.
  split; [|now intros ->]. destruct l as [|m l]; [reflexivity|].
  intros H. apply (f_equal String.length) in H. simpl in H.
  rewrite string_length_app in H. pose proof (renderLine_length m). simpl in H. lia.
Qed.

Lemma append_same_l (a b : string) : a ++ b = a -> b = "".
Proof.
  intros H. apply (f_equal String.length) in H. rewrite string_length_app in H.
  destruct b; [reflexivity|simpl in H; lia].
Qed.

End DocumentShape.

(** X6 (shape of the evaluation document).  Whatever the raw transcript, the
    document starts with the header, and it is the header alone exactly when
    no fragment has both a role and a text that is not blank. *)
Theorem document_header (t : list Item) :
  startsWith (formatTranscriptForLLM t) header = true
  /\ (formatTranscriptForLLM t = header <-> existsb carriesText t = false).
Proof.
  unfold formatTranscriptForLLM. rewrite render_document. unfold document. split.
  - apply prefix_app. eexists; reflexivity.
  - rewrite <- format_empty, <- documentLines_empty. split.
    + apply append_same_l.
    + intros ->. apply append_empty_r.
Qed.

(** * Further properties of the event handlers *)

Section Handlers.

Lemma handle_transcript (s : Session) (e : Event) :
  transcript (handle s e) = (transcript s ++ messagesOf [e])%list.
Proof.
  destruct e; simpl; rewrite ?app_nil_r; try reflexivity.
  unfold endCall. destruct (vapi s); reflexivity.
Qed.

Lemma messagesOf_cons (e : Event) (events : list Event) :
  messagesOf (e :: events) = (messagesOf [e] ++ messagesOf events)%list.
Proof. destruct e; reflexivity. Qed.

Lemma monitorStep_alerts (m : Monitor) (e : MonitorEvent) :
  alerts (monitorStep m e)
  = alerts m + (if isEmptyDetection e then 1 else 0).
Proof.
  destruct e as [|ready|faces|]; simpl; try lia.
  - destruct (detector m); [|lia]. unfold detectFaces.
    destruct ready; simpl; lia.
  - destruct faces; simpl; lia.
Qed.

End Handlers.

(** X7 (the raw transcript only grows).  After any sequence of events the raw
    transcript is the one before, followed by the entries of the transcript
    messages in their order of arrival; no listener, ["call-start"] and
    [endCall] included, removes or resets entries. *)
Theorem transcript_append_only (events : list Event) (s : Session) :
  transcript (runSession s events) = (transcript s ++ messagesOf events)%list.
Proof.
  revert s. induction events as [|e events IH]; intros s.
  - simpl. now rewrite app_nil_r.
  - change (runSession s (e :: events)) with (runSession (handle s e) events).
    now rewrite IH, handle_transcript, (messagesOf_cons e events), app_assoc.
Qed.

(** X8 (one dispatch per stop command).  Once the Vapi instance exists, the
    number of documents handed to the evaluation grows by one at every call
    of [endCall] and at no other event: a run adds as many dispatches as it
    has [endCall]s. *)
Theorem dispatch_per_endCall (events : list Event) (s : Session) :
  vapi s = true ->
  length (dispatched (runSession s events))
  = length (dispatched s) + length (filter isEndCall events).
Proof. apply runSession_dispatched. Qed.

Lemma dispatch_per_endCall_witness :
  length (dispatched
            (runSession (mkSession true false false [] [])
               [CallStart; EndCall; EndCall; CallEnd])) = 2.
Proof.
  apply (dispatch_per_endCall [CallStart; EndCall; EndCall; CallEnd]
           (mkSession true false false [] [])).
  reflexivity.
Defined.

(** X9 (presence warnings).  The warning is raised once for every detection
    that resolves with no face and at no other event: ticks, detections that
    find a face and detections that fail raise none. *)
Theorem alerts_per_empty_detection (events : list MonitorEvent) (m : Monitor) :
  alerts (runMonitor m events)
  = alerts m + length (filter isEmptyDetection events).
Proof.
  revert m. induction events as [|e events IH]; intros m; [simpl; lia|].
  change (runMonitor m (e :: events)) with (runMonitor (monitorStep m e) events).
  rewrite IH, monitorStep_alerts. cbn [filter].
  destruct (isEmptyDetection e); simpl; lia.
Qed.

(** * The matcher of the form validation *)

Section Matcher.

Lemma append_nil_inv (a b : string) : a ++ b = "" -> a = "" /\ b = "".
Proof. destruct a; simpl; [tauto|discriminate]. Qed.

Lemma nullable_spec (r : regex) : nullable r = true <-> Matches r "".
Proof.
  induction r as [| |p|r1 IH1 r2 IH2|r1 IH1 r2 IH2|r IH]; simpl.
  - split; [discriminate|intros H; inversion H].
  - split; [constructor|reflexivity].
  - split; [discriminate|intros H; inversion H].
  - rewrite andb_true_iff, IH1, IH2. split.
    + intros [H1 H2]. exact (MCat _ _ "" "" H1 H2).
    + intros H. inversion H as [| |? ? s1 s2 H1 H2 E1 E2| | | |]; subst.
      apply append_nil_inv in E2 as [-> ->]. tauto.
  - rewrite orb_true_iff, IH1, IH2. split.
    + intros [H|H]; [now apply MAltL|now apply MAltR].
    + intros H. inversion H; subst; tauto.
  - split; [constructor|reflexivity].
Qed.

(** A non-empty string of [r*] starts with a non-empty string of [r]. *)
Lemma star_cons (r : regex) (c : ascii) (s : string) :
  Matches (Star r) (String c s) ->
  exists s1 s2, s = s1 ++ s2 /\ Matches r (String c s1) /\ Matches (Star r) s2.
Proof.
  intros H. remember (Star r) as r' eqn:Er. remember (String c s) as s0 eqn:Es.
  revert s Es. induction H as [| | | | | |r0 s1 s2 H1 _ H2 IH2]; intros t Es;
    try discriminate.
  injection Er as ->. destruct s1 as [|c1 s1].
  - simpl in Es. now apply IH2.
  - simpl in Es. injection Es as -> <-. now exists s1, s2.
Qed.

Lemma deriv_spec (r : regex) :
  forall c s, Matches (deriv c r) s <-> Matches r (String c s).
Proof.
  induction r as [| |p|r1 IH1 r2 IH2|r1 IH1 r2 IH2|r IH]; intros c s; simpl.
  - split; intros H; inversion H.
  - split; intros H; inversion H.
  - destruct (p c) eqn:E; split; intros H; inversion H; subst.
    + now constructor.
    + constructor.
    + congruence.
  - split.
    + intros H. inversion H as [| | |? ? ? H'|? ? ? H'| |]; subst.
      * inversion H' as [| |? ? s1 s2 H1 H2| | | |]; subst.
        apply IH1 in H1. exact (MCat _ _ (String c s1) s2 H1 H2).
      * destruct (nullable r1) eqn:N; [|inversion H'].
        apply nullable_spec in N. apply IH2 in H'.
        exact (MCat _ _ "" (String c s) N H').
    + intros H. inversion H as [| |? ? s1 s2 H1 H2 E1 E2| | | |]; subst.
      destruct s1 as [|c1 s1]; simpl in E2.
      * subst s2. apply MAltR. apply nullable_spec in H1. rewrite H1.
        now apply IH2.
      * injection E2 as -> <-. apply MAltL. constructor; [now apply IH1|exact H2].
  - split.
    + intros H. inversion H; subst; [apply MAltL; now apply IH1|apply MAltR; now apply IH2].
    + intros H. inversion H; subst; [apply MAltL; now apply IH1|apply MAltR; now apply IH2].
  - split.
    + intros H. inversion H as [| |? ? s1 s2 H1 H2| | | |]; subst.
      apply IH in H1. exact (MStarApp _ (String c s1) s2 H1 H2).
    + intros H. apply star_cons in H as (s1 & s2 & -> & H1 & H2).
      constructor; [now apply IH|exact H2].
Qed.

(** The derivative matcher decides membership. *)
Lemma fullMatch_spec (s : string) :
  forall r, fullMatch r s = true <-> Matches r s.
Proof.
  induction s as [|c s IH]; intros r; simpl.
  - apply nullable_spec.
  - rewrite IH. apply deriv_spec.
Qed.

Lemma matches_anything (s : string) : Matches (Star anyChar) s.
Proof.
  induction s as [|c s IH]; [constructor|].
  exact (MStarApp _ (String c "") s (MClass _ c eq_refl) IH).
Qed.

(** [test] looks for a matching substring. *)
Lemma test_spec (r : regex) (s : string) :
  test r s = true <-> exists a m b, s = a ++ m ++ b /\ Matches r m.
Proof.
  unfold test. rewrite fullMatch_spec. split.
  - intros H. inversion H as [| |? ? a s' _ H'| | | |]; subst.
    inversion H' as [| |? ? m b Hm _| | | |]; subst. now exists a, m, b.
  - intros (a & m & b & -> & Hm).
    constructor; [apply matches_anything|].
    constructor; [exact Hm|apply matches_anything].
Qed.

Lemma star_class (p : ascii -> bool) (s : string) :
  Matches (Star (Class p)) s <-> allChars p s = true.
Proof.
  split.
  - intros H. remember (Star (Class p)) as r eqn:Er.
    induction H as [| | | | | |r0 s1 s2 H1 _ H2 IH2]; try discriminate;
      [reflexivity|].
    injection Er as ->. inversion H1; subst. simpl.
    apply andb_true_intro; split; [assumption|now apply IH2].
  - induction s as [|c s IH]; simpl; [constructor|].
    intros H. apply andb_prop in H as [Hc Hs].
    exact (MStarApp _ (String c "") s (MClass _ c Hc) (IH Hs)).
Qed.

Lemma plus_class (p : ascii -> bool) (s : string) :
  Matches (Plus (Class p)) s <-> s <> "" /\ allChars p s = true.
Proof.
  unfold Plus. split.
  - intros H. inversion H as [| |? ? s1 s2 H1 H2| | | |]; subst.
    inversion H1; subst. apply star_class in H2. simpl.
    split; [discriminate|]. apply andb_true_intro; now split.
  - intros [Hne H]. destruct s as [|c s]; [congruence|].
    simpl in H. apply andb_prop in H as [Hc Hs].
    exact (MCat _ _ (String c "") s (MClass _ c Hc) (proj2 (star_class p s) Hs)).
Qed.

Lemma times_class (p : ascii -> bool) (n : nat) :
  forall s, Matches (Times n (Class p)) s
            <-> String.length s = n /\ allChars p s = true.
Proof.
  induction n as [|n IH]; intros s; simpl.
  - split.
    + intros H; inversion H; subst. now split.
    + intros [H _]. destruct s; [constructor|discriminate].
  - split.
    + intros H. inversion H as [| |? ? s1 s2 H1 H2| | | |]; subst.
      inversion H1; subst. apply IH in H2 as [<- H2]. simpl.
      split; [reflexivity|]. apply andb_true_intro; now split.
    + intros [Hlen H]. destruct s as [|c s]; [discriminate|].
      simpl in *. apply andb_prop in H as [Hc Hs].
      apply (MCat _ _ (String c "") s (MClass _ c Hc)).
      apply IH. split; [lia|exact Hs].
Qed.

End Matcher.

(** * The registration form *)

Section FormFacts.

Lemma digit_not_space (c : ascii) : isDigit c = true -> isWhiteSpace c = false.
Proof.
  destruct c as [[] [] [] [] [] [] [] []]; vm_compute; congruence.
Qed.

Lemma removeNonDigits_digits (s : string) :
  allChars isDigit (removeNonDigits s) = true.
Proof.
  induction s as [|c s IH]; simpl; [reflexivity|].
  destruct (isDigit c) eqn:D; simpl; [now rewrite D|exact IH].
Qed.

Lemma removeNonDigits_blank (s : string) :
  blank s = true -> removeNonDigits s = "".
Proof.
  induction s as [|c s IH]; simpl; [reflexivity|].
  intros H. apply andb_prop in H as [Hc Hs].
  destruct (isDigit c) eqn:D; [|now apply IH].
  apply digit_not_space in D. congruence.
Qed.

Lemma tenDigits_spec (s : string) :
  fullMatch tenDigits (removeNonDigits s) = true
  <-> String.length (removeNonDigits s) = 10.
Proof.
  unfold tenDigits. rewrite fullMatch_spec, times_class.
  pose proof (removeNonDigits_digits s). tauto.
Qed.

Lemma class_char (c : ascii) (s : string) :
  Matches (Class (Ascii.eqb c)) s -> s = String c "".
Proof.
  intros H. inversion H as [|p d E| | | | |]; subst.
  apply Ascii.eqb_eq in E. now subst.
Qed.

(** The strings of [emailPattern]. *)
Lemma emailPattern_spec (m : string) :
  Matches emailPattern m
  <-> exists u v w,
        m = u ++ "@" ++ v ++ "." ++ w
        /\ (u <> "" /\ allChars nonSpace u = true)
        /\ (v <> "" /\ allChars nonSpace v = true)
        /\ (w <> "" /\ allChars nonSpace w = true).
Proof.
  unfold emailPattern. split.
  - intros H.
    inversion H as [| |? ? u s1 Hu H1| | | |]; subst.
    inversion H1 as [| |? ? a s2 Ha H2| | | |]; subst.
    inversion H2 as [| |? ? v s3 Hv H3| | | |]; subst.
    inversion H3 as [| |? ? d w Hd Hw| | | |]; subst.
    apply class_char in Ha, Hd. subst a d.
    apply plus_class in Hu, Hv, Hw. now exists u, v, w.
  - intros (u & v & w & -> & Hu & Hv & Hw).
    apply plus_class in Hu, Hv, Hw.
    constructor; [exact Hu|].
    apply (MCat _ _ "@"); [constructor; reflexivity|].
    constructor; [exact Hv|].
    apply (MCat _ _ "."); [constructor; reflexivity|exact Hw].
Qed.

Lemma keysLength_validate (fd : Form.FormData) :
  Form.keysLength (Form.validateForm fd) = 0
  <-> Form.eName (Form.validateForm fd) = None
      /\ Form.eEmail (Form.validateForm fd) = None
      /\ Form.ePhoneNumber (Form.validateForm fd) = None.
Proof.
  unfold Form.keysLength.
  destruct (Form.eName _), (Form.eEmail _), (Form.ePhoneNumber _);
    simpl; split; intros H; try lia; try reflexivity;
    try (destruct H as (H1 & H2 & H3); discriminate).
  repeat split.
Qed.

Lemma phone_ok (fd : Form.FormData) :
  Form.ePhoneNumber (Form.validateForm fd) = None
  <-> String.length (removeNonDigits (Form.phoneNumber fd)) = 10.
Proof.
  simpl. rewrite truthy_trim_blank, negb_involutive.
  destruct (blank (Form.phoneNumber fd)) eqn:B.
  - rewrite (removeNonDigits_blank _ B). simpl. split; [discriminate|lia].
  - rewrite <- tenDigits_spec.
    destruct (fullMatch tenDigits _); simpl; split; congruence.
Qed.

Lemma email_ok (fd : Form.FormData) :
  Form.eEmail (Form.validateForm fd) = None
  <-> blank (Form.email fd) = false /\ test emailPattern (Form.email fd) = true.
Proof.
  simpl. rewrite truthy_trim_blank, negb_involutive.
  destruct (blank (Form.email fd)); [split; [discriminate|intros [H _]; discriminate]|].
  destruct (test emailPattern _); simpl; split; try tauto; try discriminate.
  intros [_ H]; discriminate.
Qed.

Lemma name_ok (fd : Form.FormData) :
  Form.eName (Form.validateForm fd) = None <-> blank (Form.name fd) = false.
Proof.
  simpl. rewrite truthy_trim_blank, negb_involutive.
  destruct (blank (Form.name fd)); split; congruence.
Qed.

Lemma at_not_blank (a b : string) : blank (a ++ "@" ++ b) = false.
Proof. rewrite blank_app. simpl. apply andb_false_r. Qed.

End FormFacts.

(** X10 (phone numbers).  [validateForm] reports no phone error exactly when
    the phone number contains ten decimal digits; every other character of
    the field is ignored. *)
Theorem phone_ten_digits (fd : Form.FormData) :
  Form.ePhoneNumber (Form.validateForm fd) = None
  <-> String.length (removeNonDigits (Form.phoneNumber fd)) = 10.
Proof. apply phone_ok. Qed.

(** X11 (email addresses).  [validateForm] reports no email error exactly when
    the field contains, anywhere, a non-empty run of non-space characters, an
    at sign, another such run, a dot and a third such run. *)
Theorem email_accepted (fd : Form.FormData) :
  Form.eEmail (Form.validateForm fd) = None
  <-> exists a u v w b,
        Form.email fd = a ++ u ++ "@" ++ v ++ "." ++ w ++ b
        /\ (u <> "" /\ allChars nonSpace u = true)
        /\ (v <> "" /\ allChars nonSpace v = true)
        /\ (w <> "" /\ allChars nonSpace w = true).
Proof.
  rewrite email_ok, test_spec. split.
  - intros (_ & a & m & b & E & Hm).
    apply emailPattern_spec in Hm as (u & v & w & -> & Hu & Hv & Hw).
    exists a, u, v, w, b. split; [|tauto].
    rewrite E. f_equal. rewrite append_assoc. f_equal. simpl. f_equal.
    rewrite append_assoc. f_equal.
  - intros (a & u & v & w & b & E & Hu & Hv & Hw). split.
    + rewrite E, <- append_assoc. apply at_not_blank.
    + exists a, (u ++ "@" ++ v ++ "." ++ w), b. split.
      * rewrite E. f_equal. rewrite append_assoc. f_equal. simpl. f_equal.
        rewrite append_assoc. f_equal.
      * apply emailPattern_spec. now exists u, v, w.
Qed.

(** X12 (the email check is not anchored).  An email that [validateForm]
    accepts has at least five characters, and it is still accepted with any
    text put before and after it. *)
Theorem email_not_anchored (fd : Form.FormData) (a b : string) :
  Form.eEmail (Form.validateForm fd) = None ->
  5 <= String.length (Form.email fd)
  /\ Form.eEmail
       (Form.validateForm
          (Form.mkFormData (Form.name fd) (a ++ Form.email fd ++ b)
             (Form.phoneNumber fd) (Form.performanceDetails fd))) = None.
Proof.
  intros H. apply email_accepted in H as (a0 & u & v & w & b0 & E & Hu & Hv & Hw).
  split.
  - rewrite E. destruct Hu as [Hu _], Hv as [Hv _], Hw as [Hw _].
    destruct u; [congruence|]. destruct v; [congruence|].
    destruct w; [congruence|].
    repeat first [rewrite string_length_app | progress simpl]. lia.
  - apply email_accepted. simpl.
    exists (a ++ a0), u, v, w, (b0 ++ b). split; [|tauto].
    rewrite E. repeat first [rewrite append_assoc | progress simpl]. reflexivity.
Qed.

Lemma email_not_anchored_witness :
  5 <= String.length "a@b.c"
  /\ Form.eEmail
       (Form.validateForm
          (Form.mkFormData "Ann" ("not an address: " ++ "a@b.c" ++ " (home)")
             "0123456789" "pending")) = None.
Proof.
  apply (email_not_anchored (Form.mkFormData "Ann" "a@b.c" "0123456789" "pending")
           "not an address: " " (home)").
  reflexivity.
Defined.

Section SubmitFacts.

(** The form is valid when [validateForm] returns an object without keys. *)
Lemma validateForm_valid (fd : Form.FormData) :
  Form.keysLength (Form.validateForm fd) = 0
  <-> blank (Form.name fd) = false
      /\ test emailPattern (Form.email fd) = true
      /\ String.length (removeNonDigits (Form.phoneNumber fd)) = 10.
Proof.
  rewrite keysLength_validate, name_ok, email_ok, phone_ok. split; [tauto|].
  intros (Hn & He & Hp). repeat split; try assumption.
  apply test_spec in He as (a & m & b & E & Hm).
  apply emailPattern_spec in Hm as (u & v & w & -> & _).
  rewrite E, append_assoc, <- (append_assoc a u). apply at_not_blank.
Qed.

Lemma keysLength_ltb (e : Form.Errors) :
  Nat.ltb 0 (Form.keysLength e) = false <-> Form.keysLength e = 0.
Proof. rewrite Nat.ltb_ge. lia. Qed.

End SubmitFacts.

(** X13 (what a submission does).  [handleSubmit] calls the users API exactly
    when the name is not blank, the email matches the pattern and the phone
    number has ten digits; it calls [onSubmit] exactly when, in addition, the
    API answers with a created user, whatever becomes of the photo upload; a
    refused form keeps its loading flag and every submission that reached the
    API ends with the flag off. *)
Theorem submission_gate (st : Form.State) (post : Form.PostResult)
    (upload : Form.UploadResult) :
  let valid :=
    blank (Form.name (Form.formData st)) = false
    /\ test emailPattern (Form.email (Form.formData st)) = true
    /\ String.length (removeNonDigits (Form.phoneNumber (Form.formData st))) = 10 in
  let o := Form.handleSubmit st post upload in
  (Form.posted o = true <-> valid)
  /\ (Form.onSubmit o <> None <-> valid /\ exists id, post = Form.Created id)
  /\ (Form.posted o = false ->
      Form.isLoading (Form.final o) = Form.isLoading st
      /\ Form.errors (Form.final o) = Form.validateForm (Form.formData st))
  /\ (Form.posted o = true -> Form.isLoading (Form.final o) = false).
Proof.
  intros valid o. subst valid o. rewrite <- validateForm_valid.
  unfold Form.handleSubmit.
  destruct (Nat.ltb 0 _) eqn:L.
  - apply Nat.ltb_lt in L. simpl. repeat split; try discriminate; try congruence;
      try lia.
  - apply keysLength_ltb in L.
    destruct post as [id| | |]; [destruct (Form.profilePhoto st), upload|..];
      simpl; repeat split; try discriminate; try congruence; try tauto;
      try (now exists id);
      try (intros [_ [i Hi]]; discriminate).
Qed.

(** X14 (choosing a photo).  A file of an allowed type and of at most
    5 * 1024 * 1024 bytes becomes the selected photo, and the photo error, if
    any, is blanked; any other file leaves the selection as it was and sets a
    non-empty photo error.  Nothing else of the form changes. *)
Theorem photo_selection (st : Form.State) (f : Form.File) :
  let st' := Form.handleFileChange st (Some f) in
  (In (Form.fileType f) Form.allowedTypes /\ (Form.fileSize f <= 5242880)%N ->
   Form.profilePhoto st' = Some f
   /\ (Form.eProfilePhoto (Form.errors st') = None
       \/ Form.eProfilePhoto (Form.errors st') = Some ""))
  /\ (~ (In (Form.fileType f) Form.allowedTypes /\ (Form.fileSize f <= 5242880)%N) ->
      Form.profilePhoto st' = Form.profilePhoto st
      /\ exists message, message <> ""
           /\ Form.eProfilePhoto (Form.errors st') = Some message)
  /\ Form.formData st' = Form.formData st
  /\ Form.isLoading st' = Form.isLoading st.
Proof.
  intros st'. subst st'. unfold Form.handleFileChange.
  assert (existsb (String.eqb (Form.fileType f)) Form.allowedTypes = true
          <-> In (Form.fileType f) Form.allowedTypes) as Hin.
  { rewrite existsb_exists. split.
    - intros [x [Hx E]]. apply String.eqb_eq in E. now subst.
    - intros H. exists (Form.fileType f). split; [exact H|apply String.eqb_refl]. }
  destruct (existsb _ Form.allowedTypes) eqn:T; simpl.
  - destruct (N.ltb Form.maxSize (Form.fileSize f)) eqn:Sz; simpl.
    + apply N.ltb_lt in Sz. unfold Form.maxSize in Sz.
      split; [intros [_ Hs]; lia|]. split; [|split; reflexivity].
      intros _. split; [reflexivity|].
      eexists; split; [|reflexivity]. discriminate.
    + apply N.ltb_ge in Sz. unfold Form.maxSize in Sz.
      split; [|split; [|split; reflexivity]].
      * intros _. split; [reflexivity|].
        destruct (Form.eProfilePhoto (Form.errors st)) as [[|c m]|] eqn:E;
          simpl; rewrite ?E; auto.
      * intros Hn. exfalso. apply Hn. split; [now apply Hin|lia].
  - split; [intros [Ht _]; apply Hin in Ht; discriminate|].
    split; [|split; reflexivity].
    intros _. split; [reflexivity|].
    eexists; split; [|reflexivity]. discriminate.
Qed.

Lemma photo_selection_witness :
  Form.profilePhoto
    (Form.handleFileChange
       (Form.mkState (Form.mkFormData "" "" "" "pending") None Form.noErrors false None)
       (Some (Form.mkFile "image/png" 5242880)))
  = Some (Form.mkFile "image/png" 5242880).
Proof.
  apply (photo_selection
           (Form.mkState (Form.mkFormData "" "" "" "pending") None Form.noErrors
              false None)
           (Form.mkFile "image/png" 5242880)).
  split; [simpl; tauto|]. simpl. lia.
Defined.

(** * Face validation and the application shell *)

(** X15 (the way into the interview).  [sendPhotoToServer] calls
    [onValidationSuccess] exactly when a photo was captured, the upload was
    accepted and the recognition answered with success; the recognition
    request, when sent, carries the profile photo path of the props and the
    path the upload returned; every call shows at least one alert; with a
    captured photo the loading flag ends off; and the captured photo is
    dropped exactly when the recognition has answered. *)
Theorem validation_gate (st : Validate.State) (photoPath : string)
    (upload : Validate.UploadResult) (recognition : Validate.RecognitionResult) :
  let o := Validate.sendPhotoToServer st photoPath true upload recognition in
  (Validate.validated o = true
   <-> Validate.capturedPhoto st = true
       /\ (exists p, upload = Validate.UploadOk p)
       /\ recognition = Validate.Recognized)
  /\ (forall a b, Validate.recognitionSent o = Some (a, b)
                  <-> Validate.capturedPhoto st = true /\ a = photoPath
                      /\ upload = Validate.UploadOk b)
  /\ Validate.alerts o <> []
  /\ (Validate.capturedPhoto st = true ->
      Validate.isLoading (Validate.final o) = false)
  /\ (Validate.capturedPhoto (Validate.final o) = false
      <-> Validate.capturedPhoto st = false
          \/ ((exists p, upload = Validate.UploadOk p)
              /\ recognition <> Validate.RecognitionThrows)).
Proof.
  intros o. subst o. destruct st as [loading [|] camera].
  - destruct upload as [p| |]; [destruct recognition|..]; cbn;
      (split; [|split; [|split; [|split]]]);
      try discriminate; try reflexivity;
      try (intros a b); firstorder (eauto; try congruence).
  - cbn. split; [|split; [|split; [|split]]];
      try discriminate; try (intros a b); firstorder (try congruence).
Qed.

Lemma validation_gate_witness :
  Validate.validated
    (Validate.sendPhotoToServer (Validate.mkState false true true) "profile.jpg"
       true (Validate.UploadOk "live.jpg") Validate.Recognized) = true
  /\ Validate.isLoading
       (Validate.final
          (Validate.sendPhotoToServer (Validate.mkState false true true)
             "profile.jpg" true (Validate.UploadOk "live.jpg") Validate.Recognized))
     = false.
Proof.
  destruct (validation_gate (Validate.mkState false true true) "profile.jpg"
              (Validate.UploadOk "live.jpg") Validate.Recognized)
    as (H1 & _ & _ & H4 & _).
  split.
  - apply H1. split; [reflexivity|]. split; [now exists "live.jpg"|reflexivity].
  - apply H4. reflexivity.
Defined.

Lemma submission_gate_witness :
  Form.posted
    (Form.handleSubmit
       (Form.mkState (Form.mkFormData "Ann" "ann@example.org" "(012) 345-6789" "pending")
          None Form.noErrors false None)
       (Form.Created "42") Form.UploadFailed) = true
  /\ Form.isLoading
       (Form.final
          (Form.handleSubmit
             (Form.mkState
                (Form.mkFormData "Ann" "ann@example.org" "(012) 345-6789" "pending")
                None Form.noErrors false None)
             (Form.Created "42") Form.UploadFailed)) = false.
Proof.
  destruct (submission_gate
              (Form.mkState
                 (Form.mkFormData "Ann" "ann@example.org" "(012) 345-6789" "pending")
                 None Form.noErrors false None)
              (Form.Created "42") Form.UploadFailed)
    as (H1 & _ & _ & H4).
  assert (Form.posted
            (Form.handleSubmit
               (Form.mkState
                  (Form.mkFormData "Ann" "ann@example.org" "(012) 345-6789" "pending")
                  None Form.noErrors false None)
               (Form.Created "42") Form.UploadFailed) = true) as P.
  { apply H1. repeat split. }
  split; [exact P|exact (H4 P)].
Defined.

(** X16 (from the form to the interview).  When the form calls [onSubmit], the
    shell switches to the validation view and stores the name of the form and
    the id of the created user; the uploaded photo path (or [null]) lands in
    [position] and [photoPath] is left [undefined], because the form passes
    three arguments where [handleFormSubmit] takes four.  The assistant id is
    then the empty string unless the uploaded path is literally [RN], [LPN]
    or [HCA]. *)
Theorem form_submit_reaches_shell (env : App.Env) (app : App.State)
    (st : Form.State) (post : Form.PostResult) (upload : Form.UploadResult)
    (args : string * string * option string) :
  Form.onSubmit (Form.handleSubmit st post upload) = Some args ->
  let app' := App.onSubmit app args in
  App.view app' = App.ViewValidate
  /\ App.candidateName app' = App.Str (Form.name (Form.formData st))
  /\ (exists id, post = Form.Created id /\ App.userId app' = App.Str id)
  /\ App.photoPath app' = App.Undefined
  /\ (App.position app' = App.Null
      \/ exists p, upload = Form.Uploaded p /\ App.position app' = App.Str p)
  /\ (App.position app' <> App.Str "RN" -> App.position app' <> App.Str "LPN" ->
      App.position app' <> App.Str "HCA" -> App.getAssistantId env app' = "").
Proof.
  intros H app'. subst app'.
  assert (forall a, App.position a <> App.Str "RN" ->
                    App.position a <> App.Str "LPN" ->
                    App.position a <> App.Str "HCA" ->
                    App.getAssistantId env a = "") as Hid.
  { intros a H1 H2 H3. unfold App.getAssistantId.
    destruct (App.position a) as [| |p]; try reflexivity.
    destruct (String.eqb_spec p "RN") as [->|_]; [congruence|].
    destruct (String.eqb_spec p "LPN") as [->|_]; [congruence|].
    destruct (String.eqb_spec p "HCA") as [->|_]; [congruence|reflexivity]. }
  unfold Form.handleSubmit in H.
  destruct (Nat.ltb 0 _); [discriminate H|].
  destruct post as [id| | |]; try discriminate H.
  destruct (Form.profilePhoto st); [destruct upload as [p|]|];
    simpl in H; injection H as <-; simpl;
    (split; [reflexivity|]); (split; [reflexivity|]);
    (split; [now exists id|]); (split; [reflexivity|]);
    (split; [|intros H1 H2 H3; apply Hid; assumption]).
  - right. now exists p.
  - now left.
  - now left.
Qed.

Lemma form_submit_reaches_shell_witness :
  App.photoPath
    (App.onSubmit App.initial ("Ann", "42", Some "uploads/ann.png"))
  = App.Undefined
  /\ App.getAssistantId (App.mkEnv "rn-id" "lpn-id" "hca-id")
       (App.onSubmit App.initial ("Ann", "42", Some "uploads/ann.png")) = "".
Proof.
  destruct (form_submit_reaches_shell (App.mkEnv "rn-id" "lpn-id" "hca-id")
              App.initial
              (Form.mkState
                 (Form.mkFormData "Ann" "ann@example.org" "0123456789" "pending")
                 (Some (Form.mkFile "image/png" 1000)) Form.noErrors false None)
              (Form.Created "42") (Form.Uploaded "uploads/ann.png")
              ("Ann", "42", Some "uploads/ann.png") eq_refl)
    as (_ & _ & _ & H4 & _ & H6).
  split; [exact H4|]. apply H6; discriminate.
Defined.
